(** * Knight's tour: heuristic-guided backtracking search

    A shallow embedding of [dfs_warnsdorffs_knights_tour.py]: the move graph
    built over the cells of an N x N board, Warnsdorff's degree heuristic,
    and the recursive search [traverse] inside [find_knights_tour].

    Python integers are [Z]; a vertex is a pair [(row, col)].  The graph is a
    [defaultdict(set)]: a finite map from vertices to finite sets of vertices
    in which reading a missing key stores an empty set under that key.  The
    graph object is shared by [build_graph], [traverse] and the heuristic's
    closure, so every read is a step of a state monad over the graph. *)

From stdpp Require Import gmap list sorting.
From Stdlib Require Import QArith Qcanon Ascii.

Local Open Scope Z_scope.
Local Set Warnings "-clear-no-such-hyp".

Abbreviation vertex := (Z * Z)%type.
Abbreviation Graph := (gmap vertex (gset vertex)).

(** ** Move graph builder *)

Definition MOVE_OFFSETS : list (Z * Z) :=
  [(-1, -2); (1, -2); (-2, -1); (2, -1); (-2, 1); (2, 1); (-1, 2); (1, 2)].

(** What a read [graph[v]] evaluates to: the stored set, or the default
    empty set when [v] is not a key. *)
Definition neighbors (graph : Graph) (v : vertex) : gset vertex :=
  default ∅ (graph !! v).

(** [graph[a].add(b)]: the read creates the key when missing, then the set
    stored there is extended in place. *)
Definition set_add (graph : Graph) (a b : vertex) : Graph :=
  <[a := neighbors graph a ∪ {[b]}]> graph.

Definition add_edge (graph : Graph) (vertex_a vertex_b : vertex) : Graph :=
  set_add (set_add graph vertex_a vertex_b) vertex_b vertex_a.

Definition in_range (board_size : Z) (m : vertex) : Prop :=
  (0 ≤ m.1 ∧ m.1 < board_size) ∧ (0 ≤ m.2 ∧ m.2 < board_size).

Global Instance in_range_dec board_size m : Decision (in_range board_size m).
Proof. unfold in_range. apply _. Defined.

(** The generator [legal_moves_from], as the list of what it yields. *)
Definition legal_moves_from (row col board_size : Z) : list vertex :=
  filter (in_range board_size)
         (map (λ o : Z * Z, (row + o.1, col + o.2)) MOVE_OFFSETS).

Definition build_graph (board_size : Z) : Graph :=
  foldl (λ graph row,
    foldl (λ graph col,
      foldl (λ graph to, add_edge graph (row, col) to) graph
            (legal_moves_from row col board_size))
      graph (seqZ 0 board_size))
    ∅ (seqZ 0 board_size).

(** ** Values and effects *)

(** The values [traverse] returns: a list of vertices, [False], or [None]
    (what [first_true] returns when no item is true). *)
Inductive value : Type :=
| PyList (l : list vertex)
| PyFalse
| PyNone.

Global Instance value_eq_dec : EqDecision value.
Proof. solve_decision. Defined.

(** Python truth value: an empty list, [False] and [None] are false. *)
Definition truthy (x : value) : bool :=
  match x with
  | PyList [] => false
  | PyList (_ :: _) => true
  | PyFalse => false
  | PyNone => false
  end.

(** Computations over the shared graph.  The result is [None] only when the
    recursion budget of the model is used up. *)
Definition M (A : Type) : Type := Graph → option (A * Graph).

Definition ret {A} (x : A) : M A := λ g, Some (x, g).

Definition bind {A B} (m : M A) (k : A → M B) : M B :=
  λ g, match m g with
       | Some (x, g') => k x g'
       | None => None
       end.

Definition out_of_fuel {A} : M A := λ _, None.

Global Instance M_ret : MRet M := @ret.
Global Instance M_bind : MBind M := λ A B k m, bind m k.

(** [graph[v]] on a [defaultdict(set)]. *)
Definition getitem (v : vertex) : M (gset vertex) :=
  λ g, match g !! v with
       | Some s => Some (s, g)
       | None => Some (∅, <[v := ∅]> g)
       end.

Fixpoint mapM {A B} (f : A → M B) (l : list A) : M (list B) :=
  match l with
  | [] => ret []
  | x :: l' => y ← f x; ys ← mapM f l'; ret (y :: ys)
  end.

(** ** Heuristic orderer *)

(** [warnsdorffs_heuristic(graph)] is the closure [compute_degree]; the graph
    it captured is the shared one, so it is the state of the monad. *)
Definition warnsdorffs_heuristic (vertex : vertex) : M nat :=
  s ← getitem vertex; ret (size s).

(** Iteration over a Python set visits each element once, in an order the
    language leaves open.  The order is an interface of the model. *)
Class SetIter := {
  set_iter : gset vertex → list vertex;
  set_iter_perm : ∀ s, set_iter s ≡ₚ elements s
}.

(** [sorted(iterable, key=f)]: every key is computed once, in iteration
    order, and the sort is stable and ascending. *)
Fixpoint insert_by_key (x : nat * vertex) (l : list (nat * vertex))
  : list (nat * vertex) :=
  match l with
  | [] => [x]
  | y :: l' =>
      if decide (x.1 ≤ y.1)%nat then x :: y :: l' else y :: insert_by_key x l'
  end.

Definition stable_sort (l : list (nat * vertex)) : list (nat * vertex) :=
  foldr insert_by_key [] l.

Definition sorted (key : vertex → M nat) (l : list vertex) : M (list vertex) :=
  ks ← mapM (λ v, k ← key v; ret (k, v)) l;
  ret ((stable_sort ks).*2).

(** ** Backtracking search engine *)

(** [first_true] over a lazy sequence: an item is evaluated only when the
    loop reaches it. *)
Fixpoint first_true (sequence : list (M value)) : M value :=
  match sequence with
  | [] => ret PyNone
  | item :: rest =>
      x ← item; if truthy x then ret x else first_true rest
  end.

Fixpoint traverse `{SetIter} (heuristic : vertex → M nat) (total_squares : Z)
    (fuel : nat) (path : list vertex) (current_vertex : vertex) : M value :=
  match fuel with
  | O => out_of_fuel
  | S fuel' =>
      if decide (Z.of_nat (length path) + 1 = total_squares)
      then ret (PyList (path ++ [current_vertex]))
      else
        nbrs ← getitem current_vertex;
        let yet_to_visit := nbrs ∖ list_to_set path in
        if decide (yet_to_visit = ∅) then ret PyFalse
        else
          next_vertices ← sorted heuristic (set_iter yet_to_visit);
          first_true
            (map (traverse heuristic total_squares fuel'
                    (path ++ [current_vertex]))
                 next_vertices)
  end.

Inductive exn : Type := TypeError.

Inductive result : Type :=
| Returns (solution : value)
| Raises (e : exn).

(** Writing the solution iterates over it: a list is iterated, [False] and
    [None] are not iterable.  Opening the file and drawing the animation are
    left to the environment. *)
Definition write_solution (solution : value) : result :=
  match solution with
  | PyList l => Returns (PyList l)
  | PyFalse | PyNone => Raises TypeError
  end.

(** One call of [traverse] per cell of the path, so [total_squares] calls at
    most; one more covers the boards with no cell. *)
Definition search_fuel (total_squares : Z) : nat := S (Z.to_nat total_squares).

(** [solution = traverse([], (start_row, start_col))] together with the
    graph as the search leaves it. *)
Definition search `{SetIter} (heuristic : vertex → M nat)
    (board_size start_row start_col : Z) : option (value * Graph) :=
  let graph := build_graph board_size in
  let total_squares := board_size * board_size in
  traverse heuristic total_squares (search_fuel total_squares)
           [] (start_row, start_col) graph.

Definition find_knights_tour `{SetIter} (heuristic : vertex → M nat)
    (board_size start_row start_col : Z) : option result :=
  match search heuristic board_size start_row start_col with
  | Some (solution, _) => Some (write_solution solution)
  | None => None
  end.

(** ** Two iteration orders *)

(** The order in which stdpp lists the elements of a [gset]. *)
Definition elements_iter : SetIter :=
  {| set_iter := elements; set_iter_perm := λ s, reflexivity _ |}.

Definition row_major (a b : vertex) : Prop :=
  a.1 < b.1 ∨ (a.1 = b.1 ∧ a.2 ≤ b.2).

Global Instance row_major_dec a b : Decision (row_major a b).
Proof. unfold row_major. apply _. Defined.

(** Rows first, columns within a row. *)
Definition row_major_iter : SetIter :=
  {| set_iter := λ s, merge_sort row_major (elements s);
     set_iter_perm := λ s, merge_sort_Permutation row_major (elements s) |}.

(** ** Notions used to state the properties *)

Definition knight_step (a b : vertex) : Prop :=
  (b.1 - a.1, b.2 - a.2) ∈ MOVE_OFFSETS.

(** The pairs that [build_graph] passes to [add_edge], in loop order. *)
Definition edges (N : Z) : list (vertex * vertex) :=
  row ← seqZ 0 N; col ← seqZ 0 N;
  to ← legal_moves_from row col N; [((row, col), to)].

Definition board_cells (N : Z) : list vertex :=
  list_prod (seqZ 0 N) (seqZ 0 N).

(** Every vertex that occurs in a neighbour set is itself a key. *)
Definition closed (g : Graph) : Prop :=
  ∀ v w, w ∈ neighbors g v → w ∈ dom g.

(** The search with the graph read through a fixed neighbour function: what
    [traverse] computes when no read changes the graph. *)
Definition sorted_pure (key : vertex → nat) (l : list vertex) : list vertex :=
  (stable_sort ((λ v, (key v, v)) <$> l)).*2.

Fixpoint first_true_pure (sequence : list (option value)) : option value :=
  match sequence with
  | [] => Some PyNone
  | item :: rest =>
      match item with
      | Some x => if truthy x then Some x else first_true_pure rest
      | None => None
      end
  end.

Fixpoint traverse_pure `{SetIter} (nb : vertex → gset vertex)
    (total_squares : Z) (fuel : nat) (path : list vertex)
    (current_vertex : vertex) : option value :=
  match fuel with
  | O => None
  | S fuel' =>
      if decide (Z.of_nat (length path) + 1 = total_squares)
      then Some (PyList (path ++ [current_vertex]))
      else
        let yet_to_visit := nb current_vertex ∖ list_to_set path in
        if decide (yet_to_visit = ∅) then Some PyFalse
        else
          first_true_pure
            (map (traverse_pure nb total_squares fuel'
                    (path ++ [current_vertex]))
                 (sorted_pure (λ v, size (nb v)) (set_iter yet_to_visit)))
  end.

(** [rest] continues the path [path ++ [cur]] by moves to neighbours not yet
    on the path. *)
Fixpoint chain (nb : vertex → gset vertex) (path : list vertex)
    (cur : vertex) (rest : list vertex) : Prop :=
  match rest with
  | [] => True
  | v :: rest' => v ∈ nb cur ∧ (v ∉ path) ∧ chain nb (path ++ [cur]) v rest'
  end.

(** A failure of the search: [False] at a dead end, [None] when every
    candidate failed. *)
Definition is_failure (x : value) : Prop := x = PyFalse ∨ x = PyNone.

Definition key_le (x y : nat * vertex) : Prop := (x.1 ≤ y.1)%nat.

(** A tour of the board of side [N] from [start]: every cell once, first
    cell [start], consecutive cells a knight's move apart and adjacent in
    the move graph. *)
Definition hamiltonian_tour (N : Z) (start : vertex) (l : list vertex) : Prop :=
  Z.of_nat (length l) = N * N ∧
  NoDup l ∧
  l ≡ₚ board_cells N ∧
  head l = Some start ∧
  ∀ (i : nat) a b, l !! i = Some a → l !! S i = Some b →
    knight_step a b ∧ b ∈ neighbors (build_graph N) a.

(** The candidates in the order in which [legal_moves_from] yields them,
    that is, in the order of [MOVE_OFFSETS]. *)
Definition offset_order (N : Z) (cur : vertex) (yet_to_visit : gset vertex)
  : list vertex :=
  filter (λ v, v ∈ yet_to_visit) (legal_moves_from cur.1 cur.2 N).

(** Does the search from [v] on the board of side [N] fail, when sets are
    iterated in the order of [elements]? *)
Definition fails_from (N : Z) (v : vertex) : bool :=
  match traverse_pure (H := elements_iter) (neighbors (build_graph N))
          (N * N) (search_fuel (N * N)) [] v with
  | Some PyFalse | Some PyNone => true
  | _ => false
  end.

(** One step of [traverse] on the built graph, at a path and a current
    vertex with unvisited neighbours: [next_vertices] is what [sorted]
    returns, ascending in the degree and stable with respect to the order in
    which the set is iterated; the step is [first_true] over the attempts in
    that order, and a true result is the result of the first attempt that is
    true. *)
Definition step_ordered `{SetIter} (N : Z) (fuel : nat) (path : list vertex)
    (cur : vertex) (next_vertices : list vertex) : Prop :=
  let g := build_graph N in
  let yet_to_visit := neighbors g cur ∖ list_to_set path in
  let degree := λ v, size (neighbors g v) in
  let attempt :=
    traverse warnsdorffs_heuristic (N * N) fuel (path ++ [cur]) in
  sorted warnsdorffs_heuristic (set_iter yet_to_visit) g
    = Some (next_vertices, g) ∧
  next_vertices ≡ₚ elements yet_to_visit ∧
  StronglySorted (λ a b, (degree a ≤ degree b)%nat) next_vertices ∧
  (∀ k : nat, filter (λ v, degree v = k) next_vertices
            = filter (λ v, degree v = k) (set_iter yet_to_visit)) ∧
  traverse warnsdorffs_heuristic (N * N) (S fuel) path cur g
    = first_true (map attempt next_vertices) g ∧
  ∀ x, truthy x = true →
    (traverse warnsdorffs_heuristic (N * N) (S fuel) path cur g = Some (x, g) ↔
     ∃ l1 v l2, next_vertices = l1 ++ v :: l2 ∧
       attempt v g = Some (x, g) ∧
       Forall (λ u, ∃ y, attempt u g = Some (y, g) ∧ truthy y = false) l1).

(** A tour found on the 5 x 5 board from the corner, with sets iterated in
    the order of [elements]. *)
Definition tour_5x5 : list vertex :=
  [(0, 0); (1, 2); (0, 4); (2, 3); (4, 4); (3, 2); (4, 0); (2, 1); (0, 2);
   (1, 0); (3, 1); (4, 3); (2, 4); (0, 3); (1, 1); (3, 0); (4, 2); (3, 4);
   (1, 3); (0, 1); (2, 0); (4, 1); (3, 3); (1, 4); (2, 2)].
(** ** Further notions for the move graph *)

(** The colour of a cell, as a sign: [1] on the cells whose coordinates have
    an even sum, [-1] on the others. *)
Definition sign (v : vertex) : Z :=
  if Z.even (v.1 + v.2) then 1 else -1.

Definition sum_list_Z (l : list Z) : Z := foldr Z.add 0 l.

(** A graph in which adjacency goes both ways. *)
Definition symmetric (g : Graph) : Prop :=
  ∀ v w, w ∈ neighbors g v ↔ v ∈ neighbors g w.

(** A tour from [start] exists on the board of side [N]. *)
Definition tour_exists (N : Z) (start : vertex) : Prop :=
  ∃ l, hamiltonian_tour N start l.

(** ** The isolation game

    The game logic of [isolation_game.py]: two knights move in turn on an
    8 x 8 board, a square once visited is closed, and a knight with no move
    left loses.  The tkinter widgets are left out; what the program shows in
    a message box is kept as a list of messages.  A Python list is indexed
    the way Python does it: a negative index counts from the end, and an
    index out of range raises [IndexError], which is [None] here. *)

Definition board_size : Z := 8.

Definition knight_moves : list (Z * Z) :=
  [(2, 1); (1, 2); (-1, 2); (-2, 1); (-2, -1); (-1, -2); (1, -2); (2, -1)].

(** [l[i]] *)
Definition py_index {A} (l : list A) (i : Z) : option A :=
  if decide (0 ≤ i) then l !! Z.to_nat i
  else if decide (0 ≤ Z.of_nat (length l) + i)
       then l !! Z.to_nat (Z.of_nat (length l) + i)
       else None.

(** [l[i] = x] *)
Definition py_setitem {A} (l : list A) (i : Z) (x : A) : option (list A) :=
  if decide (0 ≤ i)
  then if decide (i < Z.of_nat (length l))
       then Some (<[Z.to_nat i := x]> l) else None
  else if decide (0 ≤ Z.of_nat (length l) + i)
       then Some (<[Z.to_nat (Z.of_nat (length l) + i) := x]> l)
       else None.

(** [m[p[0]][p[1]]] *)
Definition grid_get (m : list (list Z)) (p : Z * Z) : option Z :=
  row ← py_index m p.1; py_index row p.2.

(** [m[p[0]][p[1]] = x]; the rows are separate lists. *)
Definition grid_set (m : list (list Z)) (p : Z * Z) (x : Z)
  : option (list (list Z)) :=
  row ← py_index m p.1;
  row' ← py_setitem row p.2 x;
  py_setitem m p.1 row'.

Inductive message : Type :=
| Knight1Wins
| Knight2Wins.

Record game : Type := Game {
  visited : list (list Z);
  knight1_position : Z * Z;
  knight2_position : Z * Z;
  current_knight : Z;
  has_agent : bool;
  messages : list message
}.

Definition on_board (p : Z * Z) : Prop :=
  (0 ≤ p.1 ∧ p.1 < board_size) ∧ (0 ≤ p.2 ∧ p.2 < board_size).

Global Instance on_board_dec p : Decision (on_board p).
Proof. unfold on_board. apply _. Defined.

(** The squares a knight's move away from [position], in the order of
    [knight_moves]. *)
Definition targets (position : Z * Z) : list (Z * Z) :=
  (λ move : Z * Z, (position.1 + move.1, position.2 + move.2)) <$> knight_moves.

(** [KnightAgent.get_legal_moves]: the squares are tested in order; the
    visited mark is read only for a square on the board. *)
Fixpoint legal_among (vis : list (list Z)) (moves : list (Z * Z))
  : option (list (Z * Z)) :=
  match moves with
  | [] => Some []
  | move :: rest =>
      keep ← (if decide (on_board move)
              then c ← grid_get vis move; Some (bool_decide (c = 0))
              else Some false);
      tl ← legal_among vis rest;
      Some (if keep : bool then move :: tl else tl)
  end.

Definition get_legal_moves (g : game) (position : Z * Z)
  : option (list (Z * Z)) :=
  legal_among (visited g) (targets position).

Fixpoint onward_counts (g : game) (moves : list (Z * Z))
  : option (list (nat * (Z * Z))) :=
  match moves with
  | [] => Some []
  | move :: rest =>
      onward ← get_legal_moves g move;
      tl ← onward_counts g rest;
      Some ((length onward, move) :: tl)
  end.

(** [KnightAgent.warnsdorffs_rule]: [list.sort] with a key is stable. *)
Definition warnsdorffs_rule (g : game) (position : Z * Z)
  : option (list (Z * Z)) :=
  legal_moves ← get_legal_moves g position;
  keyed ← onward_counts g legal_moves;
  Some ((stable_sort keyed).*2).

(** The numbers [evaluate_position] computes with: Python integers and the
    floats that the division produces.  The arithmetic of floats is not
    modelled; it is an interface, with the one law the agent relies on. *)
Class Scores := {
  score : Type;
  of_int : Z → score;
  average : list score → score;
  gt : score → score → bool;
  gt_irrefl : ∀ s, gt s s = false
}.

(** A list comprehension whose element expression may raise. *)
Fixpoint collect {A B} (f : A → option B) (l : list A) : option (list B) :=
  match l with
  | [] => Some []
  | x :: rest => y ← f x; tl ← collect f rest; Some (y :: tl)
  end.

Fixpoint evaluate_position `{Scores} (g : game) (position : Z * Z)
    (depth : nat) : option score :=
  match depth with
  | O => moves ← get_legal_moves g position;
         Some (of_int (Z.of_nat (length moves)))
  | S depth' =>
      possible_moves ← warnsdorffs_rule g position;
      match possible_moves with
      | [] => Some (of_int (-9999))
      | _ :: _ =>
          scores ← collect (λ move, evaluate_position g move depth')
                     possible_moves;
          Some (average scores)
      end
  end.

(** The loop of [make_move]: the best move so far and its value. *)
Fixpoint best_of `{Scores} (g : game) (lookahead_depth : nat)
    (moves : list (Z * Z)) (best_move : option (Z * Z)) (best_value : score)
  : option (option (Z * Z) * score) :=
  match moves with
  | [] => Some (best_move, best_value)
  | move :: rest =>
      move_value ← evaluate_position g move lookahead_depth;
      if gt move_value best_value
      then best_of g lookahead_depth rest (Some move) move_value
      else best_of g lookahead_depth rest best_move best_value
  end.

(** [IsolationKnightGame.has_valid_moves] *)
Fixpoint has_valid_moves_among (vis : list (list Z)) (position : Z * Z)
    (moves : list (Z * Z)) : option bool :=
  match moves with
  | [] => Some false
  | move :: rest =>
      let next_move := (position.1 + move.1, position.2 + move.2) in
      if decide (on_board next_move)
      then c ← grid_get vis next_move;
           if decide (c = 0) then Some true
           else has_valid_moves_among vis position rest
      else has_valid_moves_among vis position rest
  end.

Definition has_valid_moves (g : game) (position : Z * Z) : option bool :=
  has_valid_moves_among (visited g) position knight_moves.

(** [IsolationKnightGame.is_valid_move]: no test that [end_] is on the
    board. *)
Definition is_valid_move (g : game) (start end_ : Z * Z) : option bool :=
  if decide (end_ ∈ targets start)
  then c ← grid_get (visited g) end_; Some (bool_decide (c = 0))
  else Some false.

(** [move_knight] only changes widgets; it indexes the 8 x 8 grid of labels
    at both squares. *)
Definition label_index_ok (p : Z * Z) : Prop :=
  (- board_size ≤ p.1 ∧ p.1 < board_size) ∧
  (- board_size ≤ p.2 ∧ p.2 < board_size).

Global Instance label_index_ok_dec p : Decision (label_index_ok p).
Proof. unfold label_index_ok. apply _. Defined.

Definition move_knight (g : game) (start end_ : Z * Z) : option game :=
  if decide (label_index_ok start ∧ label_index_ok end_) then Some g else None.

(** [update_board] only changes the colours of the widgets. *)
Definition update_board (g : game) : option game := Some g.

(** [on_square_click], with the call [self.agent.make_move()] as a
    parameter. *)
Definition on_square_click_with (agent_make_move : game → option game)
    (g : game) (x y : Z) : option game :=
  if decide (current_knight g = 1) then
    valid ← is_valid_move g (knight1_position g) (x, y);
    if valid : bool then
      g ← move_knight g (knight1_position g) (x, y);
      let g := Game (visited g) (x, y) (knight2_position g)
                 (current_knight g) (has_agent g) (messages g) in
      vis ← grid_set (visited g) (x, y) 1;
      let g := Game vis (knight1_position g) (knight2_position g)
                 (current_knight g) (has_agent g) (messages g) in
      more ← has_valid_moves g (knight2_position g);
      if negb more then
        Some (Game (visited g) (knight1_position g) (knight2_position g)
                (current_knight g) (has_agent g) (messages g ++ [Knight1Wins]))
      else
        let g := Game (visited g) (knight1_position g) (knight2_position g)
                   2 (has_agent g) (messages g) in
        if has_agent g then agent_make_move g else update_board g
    else update_board g
  else if decide (current_knight g = 2) then
    valid ← is_valid_move g (knight2_position g) (x, y);
    if valid : bool then
      g ← move_knight g (knight2_position g) (x, y);
      let g := Game (visited g) (knight1_position g) (x, y)
                 (current_knight g) (has_agent g) (messages g) in
      vis ← grid_set (visited g) (x, y) 2;
      let g := Game vis (knight1_position g) (knight2_position g)
                 (current_knight g) (has_agent g) (messages g) in
      more ← has_valid_moves g (knight1_position g);
      if negb more then
        Some (Game (visited g) (knight1_position g) (knight2_position g)
                (current_knight g) (has_agent g) (messages g ++ [Knight2Wins]))
      else
        update_board
          (Game (visited g) (knight1_position g) (knight2_position g)
             1 (has_agent g) (messages g))
    else update_board g
  else update_board g.

(** [KnightAgent.make_move], with the call [self.game.on_square_click] as a
    parameter. *)
Definition make_move_with `{Scores}
    (on_square_click : game → Z → Z → option game)
    (knight_number : Z) (lookahead_depth : nat) (g : game) : option game :=
  let knight_pos :=
    if decide (knight_number = 1) then knight1_position g
    else knight2_position g in
  moves ← warnsdorffs_rule g knight_pos;
  best ← best_of g lookahead_depth moves None (of_int (-9999));
  match best.1 with
  | Some best_move => on_square_click g best_move.1 best_move.2
  | None => Some g
  end.

(** The agent is [KnightAgent(self, 2)], with the default depth 2.  A click
    calls the agent, the agent clicks once, and that click is the second
    knight's, which calls no agent. *)
Definition make_move `{Scores} (g : game) : option game :=
  make_move_with (on_square_click_with Some) 2 2 g.

Definition on_square_click `{Scores} (g : game) (x y : Z) : option game :=
  on_square_click_with make_move g x y.

(** [IsolationKnightGame.__init__] *)
Definition new_game (knight1_start knight2_start : Z * Z) (use_agent : bool)
  : option game :=
  let vis := replicate (Z.to_nat board_size)
               (replicate (Z.to_nat board_size) 0) in
  vis ← grid_set vis knight1_start 1;
  vis ← grid_set vis knight2_start 2;
  Some (Game vis knight1_start knight2_start 1 use_agent []).

(** What the game keeps true: an 8 x 8 grid, the two knights on squares of
    the board that carry their marks, and a turn that is 1 or 2. *)
Definition grid_shape (vis : list (list Z)) : Prop :=
  length vis = Z.to_nat board_size ∧
  Forall (λ row, length row = Z.to_nat board_size) vis.

Definition game_inv (g : game) : Prop :=
  grid_shape (visited g) ∧
  on_board (knight1_position g) ∧ on_board (knight2_position g) ∧
  grid_get (visited g) (knight1_position g) = Some 1 ∧
  grid_get (visited g) (knight2_position g) = Some 2 ∧
  (current_knight g = 1 ∨ current_knight g = 2).

(** A square of the board that no knight has visited. *)
Definition open_square (vis : list (list Z)) (m : Z * Z) : Prop :=
  on_board m ∧ grid_get vis m = Some 0.

Global Instance open_square_dec vis m : Decision (open_square vis m).
Proof. unfold open_square. apply _. Defined.

(** The number of squares still open. *)
Definition open_squares (vis : list (list Z)) : nat :=
  length (filter (λ c, c = 0) (concat vis)).

(** How many moves lead on from a square: the key of [warnsdorffs_rule]. *)
Definition onward (vis : list (list Z)) (m : Z * Z) : nat :=
  length (filter (open_square vis) (targets m)).

(** What one click may do to a game: the invariant holds afterwards, the
    agent stays, no mark of a visited square changes, either nothing
    changes or fewer squares are open, and messages are only added. *)
Definition game_step (g g' : game) : Prop :=
  game_inv g' ∧
  has_agent g' = has_agent g ∧
  (∀ q c, on_board q → grid_get (visited g) q = Some c → c ≠ 0 →
          grid_get (visited g') q = Some c) ∧
  (g' = g ∨ (open_squares (visited g') < open_squares (visited g))%nat) ∧
  messages g `prefix_of` messages g'.

Global Instance message_eq_dec : EqDecision message.
Proof. solve_decision. Defined.

Global Instance game_eq_dec : EqDecision game.
Proof. solve_decision. Defined.

Global Instance grid_shape_dec vis : Decision (grid_shape vis).
Proof. unfold grid_shape. apply _. Defined.

Global Instance game_inv_dec g : Decision (game_inv g).
Proof. unfold game_inv. apply _. Defined.

(** A run of clicks, and the number of them that change the game. *)
Fixpoint play `{Scores} (g : game) (clicks : list (Z * Z)) : option game :=
  match clicks with
  | [] => Some g
  | click :: rest =>
      g' ← on_square_click g click.1 click.2; play g' rest
  end.

Fixpoint effective `{Scores} (g : game) (clicks : list (Z * Z)) : nat :=
  match clicks with
  | [] => 0
  | click :: rest =>
      match on_square_click g click.1 click.2 with
      | Some g' => (if decide (g' = g) then 0 else 1) + effective g' rest
      | None => 0
      end
  end%nat.

(** The game as the program starts it by default. *)
Definition start_game (use_agent : bool) : game :=
  Game ([1; 0; 0; 0; 0; 0; 0; 0] :: replicate 6 (replicate 8 0)
          ++ [[0; 0; 0; 0; 0; 0; 0; 2]])
       (0, 0) (7, 7) 1 use_agent [].

(** A late position: the second knight, in the corner, is to move; the two
    squares it can reach are open and every other square is closed. *)
Definition late_game : game :=
  Game ([2; 1; 1; 1; 1; 1; 1; 1] :: [1; 1; 0; 1; 1; 1; 1; 1]
          :: [1; 0; 1; 1; 1; 1; 1; 1] :: replicate 5 (replicate 8 1))
       (7, 7) (0, 0) 2 true [].

(** Averages computed exactly, to run the model. *)
Definition exact_scores : Scores :=
  {| score := Qc;
     of_int := λ z, Q2Qc (inject_Z z);
     average := λ l, (foldr Qcplus (Q2Qc 0) l / Q2Qc (inject_Z (Z.of_nat (length l))))%Qc;
     gt := λ a b, bool_decide (b < a)%Qc;
     gt_irrefl := λ s, bool_decide_eq_false_2 _ (Qlt_irrefl s) |}.
(** ** The solution file

    [find_knights_tour] writes the tour as text, one line ["row,col"] per
    cell, and [parse_solution_from_file] of [plot_knights_tour.py] reads
    such a file back.  A text is a list of characters, each a code point
    below 256.  Integers are unbounded, and so are their decimal
    conversions: no limit on the number of digits is modelled. *)

Definition newline : ascii := ascii_of_nat 10.
Definition carriage_return : ascii := ascii_of_nat 13.
Definition comma : ascii := ascii_of_nat 44.
Definition minus_sign : ascii := ascii_of_nat 45.
Definition plus_sign : ascii := ascii_of_nat 43.
Definition underscore : ascii := ascii_of_nat 95.

Definition ascii_of_digit (d : Z) : ascii := ascii_of_nat (48 + Z.to_nat d).

Definition digit_of_ascii (c : ascii) : option Z :=
  let n := Z.of_nat (nat_of_ascii c) in
  if decide (48 ≤ n ∧ n ≤ 57) then Some (n - 48) else None.

(** The decimal digits of [n >= 0], most significant first, in front of
    [acc]; [fuel] bounds the number of digits. *)
Fixpoint digits_fuel (fuel : nat) (n : Z) (acc : list ascii) : list ascii :=
  match fuel with
  | O => acc
  | S fuel' =>
      let acc' := ascii_of_digit (n `mod` 10) :: acc in
      if decide (n < 10) then acc' else digits_fuel fuel' (n `div` 10) acc'
  end.

(** [str(z)], which is what ["{}".format(z)] gives for an integer. *)
Definition str_int (z : Z) : list ascii :=
  if decide (z < 0)
  then minus_sign :: digits_fuel (S (Z.to_nat (Z.log2 (- z)))) (- z) []
  else digits_fuel (S (Z.to_nat (Z.log2 z))) z [].

(** ["{},{}".format(x[0], x[1])] *)
Definition format_cell (x : Z * Z) : list ascii :=
  str_int x.1 ++ comma :: str_int x.2.

(** [sep.join(items)] *)
Fixpoint join (sep : list ascii) (items : list (list ascii)) : list ascii :=
  match items with
  | [] => []
  | item :: rest =>
      match rest with
      | [] => item
      | _ :: _ => item ++ sep ++ join sep rest
      end
  end.

(** The text that [find_knights_tour] writes for a solution that is a
    list. *)
Definition solution_text (solution : list (Z * Z)) : list ascii :=
  join [newline] (format_cell <$> solution).

(** [os.linesep], by which a file opened in text mode replaces every
    ["\n"] that is written to it. *)
Inductive platform : Set := Posix | Windows.

Definition linesep (p : platform) : list ascii :=
  match p with
  | Posix => [newline]
  | Windows => [carriage_return; newline]
  end.

(** What [output.write(text)] puts in a file opened with [open(path, "w")]. *)
Fixpoint write_text (p : platform) (text : list ascii) : list ascii :=
  match text with
  | [] => []
  | c :: rest =>
      (if decide (c = newline) then linesep p else [c]) ++ write_text p rest
  end.

(** [f.readlines()] in text mode: a line ends after ["\n"], ["\r"] or
    ["\r\n"], each read as ["\n"] and kept at the end of the line; [cur] is
    the line read so far, last character first. *)
Fixpoint readlines_from (cur : list ascii) (text : list ascii)
  : list (list ascii) :=
  match text with
  | [] => match cur with [] => [] | _ :: _ => [rev cur] end
  | c :: rest =>
      if decide (c = newline) then rev (newline :: cur) :: readlines_from [] rest
      else if decide (c = carriage_return) then
        match rest with
        | c' :: rest' =>
            if decide (c' = newline)
            then rev (newline :: cur) :: readlines_from [] rest'
            else rev (newline :: cur) :: readlines_from [] rest
        | [] => rev (newline :: cur) :: readlines_from [] rest
        end
      else readlines_from (c :: cur) rest
  end.

Definition readlines (text : list ascii) : list (list ascii) :=
  readlines_from [] text.

(** [line.split(sep)] for a one-character separator. *)
Fixpoint split_from (sep : ascii) (cur : list ascii) (line : list ascii)
  : list (list ascii) :=
  match line with
  | [] => [rev cur]
  | c :: rest =>
      if decide (c = sep) then rev cur :: split_from sep [] rest
      else split_from sep (c :: cur) rest
  end.

Definition split (sep : ascii) (line : list ascii) : list (list ascii) :=
  split_from sep [] line.

(** White space as [int] strips it: tab to carriage return, the four
    separators 28 to 31, the space, the next-line character and the
    no-break space. *)
Definition is_space (c : ascii) : Prop :=
  let n := Z.of_nat (nat_of_ascii c) in
  (9 ≤ n ∧ n ≤ 13) ∨ (28 ≤ n ∧ n ≤ 32) ∨ n = 133 ∨ n = 160.

Global Instance is_space_dec c : Decision (is_space c).
Proof. unfold is_space. apply _. Defined.

Fixpoint lstrip (s : list ascii) : list ascii :=
  match s with
  | [] => []
  | c :: rest => if decide (is_space c) then lstrip rest else s
  end.

Definition strip (s : list ascii) : list ascii :=
  rev (lstrip (rev (lstrip s))).

(** The digits of an integer literal: at least one digit, and single
    underscores between digits.  [after_digit] tells whether the character
    before was a digit. *)
Fixpoint parse_digits (acc : Z) (after_digit : bool) (s : list ascii)
  : option Z :=
  match s with
  | [] => if after_digit then Some acc else None
  | c :: rest =>
      match digit_of_ascii c with
      | Some d => parse_digits (10 * acc + d) true rest
      | None =>
          if decide (c = underscore) then
            if after_digit then parse_digits acc false rest else None
          else None
      end
  end.

(** [int(s)] for a text [s]; [None] is [ValueError]. *)
Definition py_int (s : list ascii) : option Z :=
  match strip s with
  | c :: rest =>
      if decide (c = minus_sign) then Z.opp <$> parse_digits 0 false rest
      else if decide (c = plus_sign) then parse_digits 0 false rest
      else parse_digits 0 false (c :: rest)
  | [] => None
  end.

(** [parse_solution_from_file], from the text of the file: each line gives
    the tuple of the integers between its commas. *)
Definition parse_solution_from_file (text : list ascii)
  : option (list (list Z)) :=
  collect (λ line, collect py_int (split comma line)) (readlines text).

(** A character that is no white space, comma or line ending; the digits
    and the minus sign are such characters. *)
Definition plain (c : ascii) : Prop :=
  ¬ is_space c ∧ c ≠ comma ∧ c ≠ newline ∧ c ≠ carriage_return.

(** The lines as [readlines] returns them for a text joined with
    newlines: every line but the last keeps its newline. *)
Fixpoint with_newlines (lines : list (list ascii)) : list (list ascii) :=
  match lines with
  | [] => []
  | line :: rest =>
      match rest with
      | [] => [line]
      | _ :: _ => (line ++ [newline]) :: with_newlines rest
      end
  end.

(** ** The built graph *)

Section graph_facts.
Implicit Types (g : Graph) (a b v w : vertex) (N : Z).

Lemma elem_of_MOVE_OFFSETS (dr dc : Z) :
  (dr, dc) ∈ MOVE_OFFSETS ↔
  (dr = -1 ∧ dc = -2) ∨ (dr = 1 ∧ dc = -2) ∨ (dr = -2 ∧ dc = -1) ∨
  (dr = 2 ∧ dc = -1) ∨ (dr = -2 ∧ dc = 1) ∨ (dr = 2 ∧ dc = 1) ∨
  (dr = -1 ∧ dc = 2) ∨ (dr = 1 ∧ dc = 2).
Proof.
  unfold MOVE_OFFSETS. rewrite !elem_of_cons, elem_of_nil.
  split.
  - intros H; repeat (destruct H as [H|H]; [inversion H; lia|]); done.
  - intros H; repeat (destruct H as [[-> ->]|H]; [tauto|]).
    destruct H as [-> ->]; tauto.
Qed.

Lemma knight_step_sym a b : knight_step a b → knight_step b a.
Proof.
  unfold knight_step. rewrite !elem_of_MOVE_OFFSETS.
  destruct a as [ar ac], b as [br bc]; simpl. lia.
Qed.

Lemma knight_step_irrefl a : ¬ knight_step a a.
Proof.
  unfold knight_step. rewrite elem_of_MOVE_OFFSETS.
  destruct a as [ar ac]; simpl. lia.
Qed.

Lemma elem_of_legal_moves_from row col N w :
  w ∈ legal_moves_from row col N ↔ in_range N w ∧ knight_step (row, col) w.
Proof.
  unfold legal_moves_from, knight_step.
  rewrite list_elem_of_filter, list_elem_of_fmap. simpl.
  split.
  - intros [Hr ([dr dc] & -> & Ho)]. split; [done|]. simpl.
    by replace (row + dr - row) with dr by lia;
       replace (col + dc - col) with dc by lia.
  - intros [Hr Ho]. split; [done|].
    exists (w.1 - row, w.2 - col). split; [|done].
    destruct w as [wr wc]; simpl; f_equal; lia.
Qed.

Lemma elem_of_edges N a b :
  (a, b) ∈ edges N ↔ in_range N a ∧ in_range N b ∧ knight_step a b.
Proof.
  unfold edges. rewrite list_elem_of_bind. split.
  - intros (row & Hin & Hrow). apply list_elem_of_bind in Hin as (col & Hin & Hcol).
    apply list_elem_of_bind in Hin as (to & Hin & Hto).
    apply list_elem_of_singleton in Hin. injection Hin as -> ->.
    apply elem_of_seqZ in Hrow, Hcol.
    apply elem_of_legal_moves_from in Hto as [? ?].
    unfold in_range in *; simpl in *. repeat split; try done; lia.
  - intros (Ha & Hb & Hs). destruct a as [row col].
    exists row. split; [|apply elem_of_seqZ; unfold in_range in Ha; simpl in Ha; lia].
    apply list_elem_of_bind. exists col.
    split; [|apply elem_of_seqZ; unfold in_range in Ha; simpl in Ha; lia].
    apply list_elem_of_bind. exists b. split; [apply list_elem_of_singleton; done|].
    by apply elem_of_legal_moves_from.
Qed.

Lemma foldl_bind {A B C} (f : A → C → A) (h : B → list C) (l : list B) (x : A) :
  foldl f x (l ≫= h) = foldl (λ acc y, foldl f acc (h y)) x l.
Proof.
  revert x. induction l as [|y l IH]; intros x; simpl; [done|].
  by rewrite foldl_app, IH.
Qed.

Lemma foldl_ext_all {A B} (f h : A → B → A) (l : list B) (x : A) :
  (∀ acc y, f acc y = h acc y) → foldl f x l = foldl h x l.
Proof.
  intros Hfh. revert x. induction l as [|y l IH]; intros x; simpl; [done|].
  by rewrite Hfh, IH.
Qed.

Lemma build_graph_edges N :
  build_graph N = foldl (λ g e, add_edge g e.1 e.2) ∅ (edges N).
Proof.
  unfold build_graph, edges. rewrite foldl_bind.
  apply foldl_ext_all; intros g row. rewrite foldl_bind.
  apply foldl_ext_all; intros g' col. rewrite foldl_bind.
  by apply foldl_ext_all.
Qed.

Lemma neighbors_set_add g a b v :
  neighbors (set_add g a b) v =
  if decide (a = v) then neighbors g a ∪ {[b]} else neighbors g v.
Proof.
  unfold set_add. unfold neighbors at 1. rewrite lookup_insert.
  by case_decide.
Qed.

Lemma elem_of_neighbors_add_edge g a b v w :
  w ∈ neighbors (add_edge g a b) v ↔
  w ∈ neighbors g v ∨ (v = a ∧ w = b) ∨ (v = b ∧ w = a).
Proof.
  unfold add_edge. rewrite !neighbors_set_add.
  repeat case_decide; subst; set_solver.
Qed.

Lemma elem_of_neighbors_foldl (es : list (vertex * vertex)) g v w :
  w ∈ neighbors (foldl (λ g e, add_edge g e.1 e.2) g es) v ↔
  w ∈ neighbors g v ∨ (v, w) ∈ es ∨ (w, v) ∈ es.
Proof.
  revert g. induction es as [|[a b] es IH]; intros g; simpl.
  - rewrite !elem_of_nil. tauto.
  - rewrite IH, elem_of_neighbors_add_edge, !elem_of_cons.
    split; [|naive_solver]. intros [[?|[[-> ->]|[-> ->]]]|[?|?]]; eauto.
Qed.

Lemma dom_set_add g a b : dom (set_add g a b) = {[a]} ∪ dom g.
Proof. unfold set_add. by rewrite dom_insert_L. Qed.

Lemma dom_add_edge g a b : dom (add_edge g a b) = {[a; b]} ∪ dom g.
Proof. unfold add_edge. rewrite !dom_set_add. set_solver. Qed.

Lemma elem_of_dom_foldl (es : list (vertex * vertex)) g v :
  v ∈ dom (foldl (λ g e, add_edge g e.1 e.2) g es) ↔
  v ∈ dom g ∨ ∃ w, (v, w) ∈ es ∨ (w, v) ∈ es.
Proof.
  revert g. induction es as [|[a b] es IH]; intros g; simpl.
  - split; [by left|]. intros [?|[w [H|H]]]; [done|by apply elem_of_nil in H..].
  - rewrite IH, dom_add_edge. split.
    + intros [Hd|[w [H|H]]].
      * apply elem_of_union in Hd as [Hd|Hd]; [|by left].
        right. apply elem_of_union in Hd as [Hd|Hd]; apply elem_of_singleton in Hd; subst.
        -- exists b. left. left.
        -- exists a. right. left.
      * right. exists w. left. by right.
      * right. exists w. right. by right.
    + intros [Hd|[w [H|H]]].
      * left. set_solver.
      * apply elem_of_cons in H as [H|H]; [injection H as -> ->; left; set_solver|].
        right. exists w. by left.
      * apply elem_of_cons in H as [H|H]; [injection H as -> ->; left; set_solver|].
        right. exists w. by right.
Qed.

(** The neighbour sets of the built graph are the knight moves that stay on
    the board. *)
Lemma elem_of_neighbors_build_graph N v w :
  w ∈ neighbors (build_graph N) v ↔
  in_range N v ∧ in_range N w ∧ knight_step v w.
Proof.
  rewrite build_graph_edges, elem_of_neighbors_foldl, !elem_of_edges.
  unfold neighbors. rewrite lookup_empty. simpl. split.
  - intros [H|[H|(?&?&?%knight_step_sym)]]; [set_solver|done..].
  - intros H. right. by left.
Qed.

(** The keys of the built graph are the cells with at least one move. *)
Lemma elem_of_dom_build_graph N v :
  v ∈ dom (build_graph N) ↔
  in_range N v ∧ ∃ w, in_range N w ∧ knight_step v w.
Proof.
  rewrite build_graph_edges, elem_of_dom_foldl, dom_empty_L. split.
  - intros [H|[w [H|H]]]; [set_solver|..]; apply elem_of_edges in H as (?&?&?).
    + eauto.
    + eauto using knight_step_sym.
  - intros (Hv & w & Hw & Hs). right. exists w. left. by apply elem_of_edges.
Qed.

Lemma neighbors_build_graph N row col :
  in_range N (row, col) →
  neighbors (build_graph N) (row, col) = list_to_set (legal_moves_from row col N).
Proof.
  intros Hv. apply set_eq; intros w.
  rewrite elem_of_neighbors_build_graph, elem_of_list_to_set,
    elem_of_legal_moves_from. tauto.
Qed.

Lemma neighbors_build_graph_outside N v :
  ¬ in_range N v → neighbors (build_graph N) v = ∅.
Proof.
  intros Hv. apply set_eq; intros w.
  rewrite elem_of_neighbors_build_graph. set_solver.
Qed.

Lemma NoDup_MOVE_OFFSETS : NoDup MOVE_OFFSETS.
Proof.
  apply NoDup_ListNoDup. unfold MOVE_OFFSETS.
  repeat constructor; simpl; intuition congruence.
Qed.

Lemma NoDup_legal_moves_from row col N : NoDup (legal_moves_from row col N).
Proof.
  unfold legal_moves_from. apply NoDup_filter.
  apply (NoDup_fmap_2_strong _); [|apply NoDup_MOVE_OFFSETS].
  intros [a b] [c d] _ _ Heq; simpl in Heq. injection Heq as ? ?.
  f_equal; lia.
Qed.

Lemma elem_of_board_cells N v : v ∈ board_cells N ↔ in_range N v.
Proof.
  unfold board_cells. destruct v as [r c].
  rewrite list_elem_of_In, in_prod_iff, <- !list_elem_of_In, !elem_of_seqZ.
  unfold in_range; simpl. lia.
Qed.

Lemma NoDup_list_prod {A B} (l : list A) (k : list B) :
  NoDup l → NoDup k → NoDup (list_prod l k).
Proof.
  intros Hl Hk. induction Hl as [|x l Hx Hl IH]; simpl; [constructor|].
  apply NoDup_app. split_and!; [|intros [a b] Hab Hin|done].
  - apply (NoDup_fmap_2_strong (λ y, (x, y))); [|done]. by intros ?? _ _ [= ->].
  - apply list_elem_of_fmap in Hab as (b' & [= -> ->] & _).
    apply list_elem_of_In, in_prod_iff in Hin as [Hin _].
    by apply list_elem_of_In in Hin.
Qed.

Lemma NoDup_board_cells N : NoDup (board_cells N).
Proof. apply NoDup_list_prod; apply NoDup_seqZ. Qed.

Lemma length_board_cells N : 0 ≤ N → Z.of_nat (length (board_cells N)) = N * N.
Proof.
  intros HN. unfold board_cells. rewrite length_prod, length_seqZ. lia.
Qed.

(** On a board of side four or more a knight can move from every cell. *)
Lemma has_move N v :
  4 ≤ N → in_range N v → ∃ w, in_range N w ∧ knight_step v w.
Proof.
  intros HN Hv. destruct v as [r c]. unfold in_range in *; simpl in *.
  exists (if decide (r + 2 < N) then r + 2 else r - 2,
          if decide (c + 1 < N) then c + 1 else c - 1).
  unfold knight_step. rewrite elem_of_MOVE_OFFSETS. simpl.
  repeat case_decide; lia.
Qed.

End graph_facts.

(** ** The stable sort *)

Section sorting_facts.
Implicit Types (x y : nat * vertex) (l : list (nat * vertex)).

Lemma insert_by_key_perm x l : insert_by_key x l ≡ₚ x :: l.
Proof.
  induction l as [|y l IH]; simpl; [done|].
  case_decide; [done|]. rewrite IH. apply Permutation_swap.
Qed.

Lemma stable_sort_perm l : stable_sort l ≡ₚ l.
Proof.
  induction l as [|x l IH]; simpl; [done|].
  by rewrite insert_by_key_perm, IH.
Qed.

Lemma insert_by_key_sorted x l :
  StronglySorted key_le l → StronglySorted key_le (insert_by_key x l).
Proof.
  induction 1 as [|y l Hl IH Hy]; simpl.
  - repeat constructor.
  - case_decide as Hxy.
    + constructor; [by constructor|]. constructor; [done|].
      eapply Forall_impl; [exact Hy|]. unfold key_le. intros; lia.
    + constructor; [done|]. rewrite insert_by_key_perm.
      constructor; [unfold key_le; lia|done].
Qed.

Lemma stable_sort_sorted l : StronglySorted key_le (stable_sort l).
Proof.
  induction l as [|x l IH]; simpl; [constructor|].
  by apply insert_by_key_sorted.
Qed.

Lemma insert_by_key_filter (k : nat) x l :
  StronglySorted key_le l →
  filter (λ y, y.1 = k) (insert_by_key x l) = filter (λ y, y.1 = k) (x :: l).
Proof.
  induction 1 as [|y l Hl IH Hy]; simpl; [done|].
  case_decide as Hxy; [done|].
  rewrite !filter_cons. rewrite IH, filter_cons.
  repeat case_decide; try done; lia.
Qed.

(** Elements with equal keys keep the order they had in the input. *)
Lemma stable_sort_stable (k : nat) l :
  filter (λ y, y.1 = k) (stable_sort l) = filter (λ y, y.1 = k) l.
Proof.
  induction l as [|x l IH]; simpl; [done|].
  rewrite insert_by_key_filter by apply stable_sort_sorted.
  by rewrite !filter_cons, IH.
Qed.

Lemma decorate_snd (key : vertex → nat) (l : list vertex) :
  ((λ v, (key v, v)) <$> l).*2 = l.
Proof.
  induction l as [|v l IH]; [done|]. rewrite !fmap_cons. simpl. by f_equal.
Qed.

Lemma sorted_pure_perm (key : vertex → nat) (l : list vertex) :
  sorted_pure key l ≡ₚ l.
Proof.
  unfold sorted_pure. by rewrite stable_sort_perm, decorate_snd.
Qed.

Lemma stable_sort_keys (key : vertex → nat) (l : list vertex) :
  Forall (λ x, x.1 = key x.2) (stable_sort ((λ v, (key v, v)) <$> l)).
Proof.
  rewrite stable_sort_perm. apply Forall_fmap, Forall_forall. by intros.
Qed.

Lemma sorted_pure_sorted (key : vertex → nat) (l : list vertex) :
  StronglySorted (λ a b, (key a ≤ key b)%nat) (sorted_pure key l).
Proof.
  unfold sorted_pure.
  pose proof (stable_sort_keys key l) as Hk.
  pose proof (stable_sort_sorted ((λ v, (key v, v)) <$> l)) as Hs.
  induction Hs as [|x l' Hs IH Hx]; simpl; [constructor|].
  apply Forall_cons in Hk as [Hkx Hk].
  constructor; [by apply IH|].
  apply Forall_fmap, Forall_forall. intros y Hy. simpl.
  rewrite Forall_forall in Hx, Hk. specialize (Hx y Hy). specialize (Hk y Hy).
  unfold key_le in Hx. lia.
Qed.

Lemma sorted_pure_stable (key : vertex → nat) (k : nat) (l : list vertex) :
  filter (λ v, key v = k) (sorted_pure key l) = filter (λ v, key v = k) l.
Proof.
  unfold sorted_pure.
  assert (Hf : ∀ l' : list (nat * vertex), Forall (λ x, x.1 = key x.2) l' →
            filter (λ v, key v = k) l'.*2 = (filter (λ y, y.1 = k) l').*2).
  { induction 1 as [|x l' Hx Hl' IH]; [done|]. rewrite fmap_cons, !filter_cons.
    rewrite IH. repeat case_decide; try done; congruence. }
  rewrite Hf by apply stable_sort_keys.
  rewrite stable_sort_stable, <- (Hf ((λ v, (key v, v)) <$> l)).
  - by rewrite decorate_snd.
  - apply Forall_fmap, Forall_forall. by intros.
Qed.

End sorting_facts.

(** ** Reads that do not change the graph *)

Section closed_graph.
Context `{SetIter}.
Implicit Types (g : Graph) (v cur : vertex) (path : list vertex).

Lemma bind_run {A B} (m : M A) (k : A → M B) g :
  (m ≫= k) g = match m g with Some (x, g') => k x g' | None => None end.
Proof. reflexivity. Qed.

Lemma getitem_dom g v : v ∈ dom g → getitem v g = Some (neighbors g v, g).
Proof.
  intros [s Hs]%elem_of_dom. unfold getitem, neighbors. by rewrite Hs.
Qed.

Lemma getitem_fresh g v :
  v ∉ dom g → getitem v g = Some (∅, <[v := ∅]> g) ∧ neighbors g v = ∅.
Proof.
  intros Hv%not_elem_of_dom. unfold getitem, neighbors. by rewrite Hv.
Qed.

Lemma warnsdorffs_heuristic_dom g v :
  v ∈ dom g → warnsdorffs_heuristic v g = Some (size (neighbors g v), g).
Proof.
  intros Hv. unfold warnsdorffs_heuristic. by rewrite bind_run, getitem_dom.
Qed.

Lemma mapM_keys g (key : vertex → M nat) (d : vertex → nat) (l : list vertex) :
  Forall (λ v, key v g = Some (d v, g)) l →
  mapM (λ v, k ← key v; ret (k, v)) l g = Some ((λ v, (d v, v)) <$> l, g).
Proof.
  induction 1 as [|v l Hv Hl IH]; [done|].
  change (mapM (λ v, k ← key v; ret (k, v)) (v :: l) g) with
    ((y ← (k ← key v; ret (k, v));
      ys ← mapM (λ v, k ← key v; ret (k, v)) l; ret (y :: ys)) g).
  rewrite !bind_run, Hv. unfold ret at 1. by rewrite bind_run, IH.
Qed.

Lemma sorted_dom g (l : list vertex) :
  Forall (λ v, v ∈ dom g) l →
  sorted warnsdorffs_heuristic l g =
  Some (sorted_pure (λ v, size (neighbors g v)) l, g).
Proof.
  intros Hl. unfold sorted, sorted_pure. rewrite bind_run.
  rewrite (mapM_keys g _ (λ v, size (neighbors g v))); [done|].
  eapply Forall_impl; [exact Hl|]. intros v Hv.
  by apply warnsdorffs_heuristic_dom.
Qed.

Lemma first_true_closed g (f : vertex → M value) (p : vertex → option value)
    (l : list vertex) :
  Forall (λ v, f v g = (λ x, (x, g)) <$> p v) l →
  first_true (map f l) g = (λ x, (x, g)) <$> first_true_pure (map p l).
Proof.
  induction 1 as [|v l Hv Hl IH]; [done|]. simpl.
  rewrite bind_run, Hv. destruct (p v) as [x|]; simpl; [|done].
  by destruct (truthy x).
Qed.

Lemma traverse_closed g total fuel path cur :
  closed g → cur ∈ dom g →
  traverse warnsdorffs_heuristic total fuel path cur g =
  (λ x, (x, g)) <$> traverse_pure (neighbors g) total fuel path cur.
Proof.
  intros Hg. revert path cur.
  induction fuel as [|fuel IH]; intros path cur Hcur; simpl; [done|].
  case_decide; [done|].
  rewrite bind_run, getitem_dom by done.
  case_decide; [done|].
  assert (Forall (λ v, v ∈ dom g)
            (set_iter (neighbors g cur ∖ list_to_set path))) as Hdom.
  { apply Forall_forall. intros v Hv. rewrite set_iter_perm in Hv.
    apply elem_of_elements, elem_of_difference in Hv as [Hv _]. eauto. }
  rewrite bind_run, sorted_dom by done.
  apply first_true_closed, Forall_forall. intros v Hv. apply IH.
  rewrite sorted_pure_perm in Hv. by rewrite Forall_forall in Hdom; apply Hdom.
Qed.

(** A start vertex that is not a key: the read stores an empty set for it
    and the search stops there. *)
Lemma traverse_fresh g (heuristic : vertex → M nat) total fuel path cur :
  cur ∉ dom g →
  traverse heuristic total (S fuel) path cur g =
  if decide (Z.of_nat (length path) + 1 = total)
  then Some (PyList (path ++ [cur]), g)
  else Some (PyFalse, <[cur := ∅]> g).
Proof.
  intros [Hget Hnb]%getitem_fresh. simpl. case_decide; [done|].
  rewrite bind_run, Hget. rewrite decide_True; [done|set_solver].
Qed.

Lemma traverse_pure_fresh (nb : vertex → gset vertex) total fuel path cur :
  nb cur = ∅ →
  traverse_pure nb total (S fuel) path cur =
  if decide (Z.of_nat (length path) + 1 = total)
  then Some (PyList (path ++ [cur]))
  else Some PyFalse.
Proof.
  intros Hnb. simpl. case_decide; [done|].
  rewrite decide_True; [done|set_solver].
Qed.

End closed_graph.

Section build_graph_closed.
Context `{SetIter}.

Lemma closed_build_graph N : closed (build_graph N).
Proof.
  intros v w (Hv & Hw & Hs)%elem_of_neighbors_build_graph.
  apply elem_of_dom_build_graph. eauto using knight_step_sym.
Qed.

(** A search from the empty path on the built graph: either no read changes
    the graph, or the start vertex is not a key and the search stops at it. *)
Lemma traverse_build_graph N fuel r c :
  traverse warnsdorffs_heuristic (N * N) (S fuel) [] (r, c) (build_graph N) =
  if decide ((r, c) ∈ dom (build_graph N) ∨ N * N = 1)
  then (λ x, (x, build_graph N)) <$>
         traverse_pure (neighbors (build_graph N)) (N * N) (S fuel) [] (r, c)
  else Some (PyFalse, <[(r, c) := ∅]> (build_graph N)).
Proof.
  destruct (decide ((r, c) ∈ dom (build_graph N))) as [Hd|Hd].
  - rewrite decide_True by auto.
    apply traverse_closed; [apply closed_build_graph|done].
  - rewrite traverse_fresh by done.
    pose proof (getitem_fresh _ _ Hd) as [_ Hnb].
    rewrite traverse_pure_fresh by done. simpl.
    case_decide as Hn; simpl in Hn; [by rewrite decide_True by (right; lia)|].
    rewrite decide_False; [done|]. intros [?|?]; [done|lia].
Qed.

(** The search, with the graph it leaves behind. *)
Lemma search_unfold N r c :
  search warnsdorffs_heuristic N r c =
  if decide ((r, c) ∈ dom (build_graph N) ∨ N * N = 1)
  then (λ x, (x, build_graph N)) <$>
         traverse_pure (neighbors (build_graph N)) (N * N)
           (search_fuel (N * N)) [] (r, c)
  else Some (PyFalse, <[(r, c) := ∅]> (build_graph N)).
Proof. apply traverse_build_graph. Qed.

Lemma search_value N r c :
  fst <$> search warnsdorffs_heuristic N r c =
  traverse_pure (neighbors (build_graph N)) (N * N) (search_fuel (N * N))
    [] (r, c).
Proof.
  rewrite search_unfold. case_decide as Hd.
  - by destruct (traverse_pure (neighbors (build_graph N)) (N * N)
                  (search_fuel (N * N)) [] (r, c)).
  - apply Decidable.not_or in Hd as [Hd Hn]. unfold search_fuel.
    pose proof (getitem_fresh _ _ Hd) as [_ Hnb].
    rewrite traverse_pure_fresh by done. simpl. rewrite decide_False; [done|lia].
Qed.

End build_graph_closed.

(** ** The search over a fixed neighbour function *)

Section first_true_facts.
Context {A : Type}.
Implicit Types (f : A → option value) (l : list A).

Lemma first_true_pure_cons f a l :
  first_true_pure (map f (a :: l)) =
  match f a with
  | Some x => if truthy x then Some x else first_true_pure (map f l)
  | None => None
  end.
Proof. reflexivity. Qed.

(** A true result is the result of the first item that is true; the items
    after it play no part. *)
Lemma first_true_pure_split f l x :
  truthy x = true →
  first_true_pure (map f l) = Some x ↔
  ∃ l1 a l2, l = l1 ++ a :: l2 ∧ f a = Some x ∧
    Forall (λ b, ∃ y, f b = Some y ∧ truthy y = false) l1.
Proof.
  intros Hx. induction l as [|a l IH].
  - simpl. split; [intros [= <-]; done|].
    intros (l1 & a & l2 & Hl & _). by destruct l1.
  - rewrite first_true_pure_cons. split.
    + destruct (f a) as [y|] eqn:Hfa; [|done].
      destruct (truthy y) eqn:Hy.
      * intros [= ->]. exists [], a, l. by repeat split.
      * intros (l1 & b & l2 & -> & Hb & Hl1)%IH.
        exists (a :: l1), b, l2. repeat split; [done|].
        constructor; [eauto|done].
    + intros (l1 & b & l2 & Hl & Hb & Hl1). destruct l1 as [|a' l1].
      * injection Hl as -> ->. by rewrite Hb, Hx.
      * injection Hl as -> ->. apply Forall_cons in Hl1 as [(y & -> & ->) Hl1].
        apply IH. eauto 10.
Qed.

Lemma first_true_pure_total f l :
  Forall (λ a, is_Some (f a)) l → is_Some (first_true_pure (map f l)).
Proof.
  induction 1 as [|a l [x Hx] Hl IH]; [by eexists|].
  rewrite first_true_pure_cons, Hx. by destruct (truthy x).
Qed.

Lemma first_true_pure_found f l a x :
  Forall (λ a, is_Some (f a)) l →
  a ∈ l → f a = Some x → truthy x = true →
  ∃ y, first_true_pure (map f l) = Some y ∧ truthy y = true.
Proof.
  intros Hl Ha Hfa Hx. induction Hl as [|b l [y Hy] Hl IH].
  - by apply elem_of_nil in Ha.
  - rewrite first_true_pure_cons, Hy. destruct (truthy y) eqn:Hty; [eauto|].
    apply elem_of_cons in Ha as [->|Ha]; [congruence|auto].
Qed.

(** When no item is true the result is [None]. *)
Lemma first_true_pure_falsy f l x :
  first_true_pure (map f l) = Some x → truthy x = false → x = PyNone.
Proof.
  induction l as [|a l IH]; [by intros [= <-]|].
  rewrite first_true_pure_cons. destruct (f a) as [y|]; [|done].
  destruct (truthy y) eqn:Hy; [|done]. intros [= ->]. congruence.
Qed.

Lemma first_true_pure_ext f h l x :
  (∀ a y, a ∈ l → f a = Some y → h a = Some y) →
  first_true_pure (map f l) = Some x → first_true_pure (map h l) = Some x.
Proof.
  induction l as [|a l IH]; [done|]. intros Hfh.
  rewrite !first_true_pure_cons. destruct (f a) as [y|] eqn:Hfa; [|done].
  rewrite (Hfh a y) by (done || left).
  destruct (truthy y); [done|]. apply IH. intros b z Hb. apply Hfh. by right.
Qed.

End first_true_facts.

Section pure_search.
Context `{SetIter}.
Variable nb : vertex → gset vertex.
Variable total : Z.
Implicit Types (path rest : list vertex) (cur v : vertex) (fuel : nat).

Lemma elem_of_candidates path cur v :
  v ∈ sorted_pure (λ v, size (nb v)) (set_iter (nb cur ∖ list_to_set path)) ↔
  v ∈ nb cur ∧ v ∉ path.
Proof.
  rewrite sorted_pure_perm, set_iter_perm, elem_of_elements,
    elem_of_difference, elem_of_list_to_set. done.
Qed.

Lemma traverse_pure_S fuel path cur :
  traverse_pure nb total (S fuel) path cur =
  if decide (Z.of_nat (length path) + 1 = total)
  then Some (PyList (path ++ [cur]))
  else
    if decide (nb cur ∖ list_to_set path = ∅) then Some PyFalse
    else first_true_pure
           (map (traverse_pure nb total fuel (path ++ [cur]))
              (sorted_pure (λ v, size (nb v))
                 (set_iter (nb cur ∖ list_to_set path)))).
Proof. reflexivity. Qed.

(** A list returned by the search is the path, the current vertex, and a
    chain of moves that fills the board. *)
Lemma traverse_pure_sound fuel path cur l :
  traverse_pure nb total fuel path cur = Some (PyList l) →
  ∃ rest, l = path ++ cur :: rest ∧ Z.of_nat (length l) = total ∧
          chain nb path cur rest.
Proof.
  revert path cur. induction fuel as [|fuel IH]; intros path cur; [done|].
  rewrite traverse_pure_S. case_decide as Hlen.
  - intros [= <-]. exists []. rewrite length_app. simpl. split_and!; [done|lia|done].
  - case_decide; [done|]. intros Hft.
    destruct l as [|a l]; [by apply first_true_pure_falsy in Hft|].
    apply first_true_pure_split in Hft as (l1 & v & l2 & Hl & Hv & _); [|done].
    apply IH in Hv as (rest & -> & Hlen' & Hch).
    assert (v ∈ nb cur ∧ v ∉ path) as [? ?].
    { apply elem_of_candidates. rewrite Hl. set_solver. }
    exists (v :: rest). split_and!; [by rewrite <- app_assoc|done|done..].
Qed.

(** The search returns: the budget is one call per cell still to visit. *)
Lemma traverse_pure_total fuel path cur :
  Z.of_nat (length path) + 1 ≤ total →
  total ≤ Z.of_nat (length path + fuel) →
  is_Some (traverse_pure nb total fuel path cur).
Proof.
  revert path cur. induction fuel as [|fuel IH]; intros path cur Hlo Hhi; [lia|].
  rewrite traverse_pure_S. case_decide; [by eexists|].
  case_decide; [by eexists|].
  apply first_true_pure_total, Forall_forall. intros v _.
  apply IH; rewrite length_app; simpl; lia.
Qed.

(** What the search returns is a non-empty list, [False] or [None]. *)
Lemma traverse_pure_value fuel path cur x :
  traverse_pure nb total fuel path cur = Some x →
  (∃ a l, x = PyList (a :: l)) ∨ is_failure x.
Proof.
  destruct x as [[|a l]| |]; unfold is_failure; eauto.
  intros (rest & Hl & _)%traverse_pure_sound. by destruct path.
Qed.

(** Whenever some chain of moves fills the board, the search finds one. *)
Lemma traverse_pure_complete fuel path cur rest :
  total ≤ Z.of_nat (length path + fuel) →
  Z.of_nat (length (path ++ cur :: rest)) = total →
  chain nb path cur rest →
  ∃ l, traverse_pure nb total fuel path cur = Some (PyList l).
Proof.
  revert path cur rest.
  induction fuel as [|fuel IH]; intros path cur rest Hhi Hlen Hch.
  { rewrite length_app in Hlen. simpl in Hlen. lia. }
  rewrite traverse_pure_S. case_decide as Hne; [eauto|].
  rewrite length_app in Hlen. simpl in Hlen.
  destruct rest as [|v rest]; [simpl in Hlen; lia|].
  destruct Hch as (Hv & Hp & Hch).
  rewrite decide_False by set_solver.
  assert (Hcand : v ∈ sorted_pure (λ v, size (nb v))
                        (set_iter (nb cur ∖ list_to_set path)))
    by by apply elem_of_candidates.
  destruct (IH (path ++ [cur]) v rest) as [l Hl];
    [rewrite length_app; simpl; lia
    |rewrite !length_app; simpl in *; lia|done|].
  assert (l ≠ []) as Hnil.
  { apply traverse_pure_sound in Hl as (? & -> & _). by destruct path. }
  destruct (first_true_pure_found
              (traverse_pure nb total fuel (path ++ [cur]))
              (sorted_pure (λ v, size (nb v))
                 (set_iter (nb cur ∖ list_to_set path))) v (PyList l))
    as (y & Hy & Hty); [|done|done|by destruct l|].
  { apply Forall_forall. intros u _.
    apply traverse_pure_total; rewrite length_app; simpl; lia. }
  rewrite Hy. destruct y as [l'| |]; [eauto|done..].
Qed.

(** More budget does not change a result. *)
Lemma traverse_pure_fuel fuel k path cur x :
  traverse_pure nb total fuel path cur = Some x →
  traverse_pure nb total (fuel + k) path cur = Some x.
Proof.
  revert path cur x. induction fuel as [|fuel IH]; intros path cur x; [done|].
  rewrite Nat.add_succ_l, !traverse_pure_S.
  case_decide; [done|]. case_decide; [done|].
  apply first_true_pure_ext. intros v y _. apply IH.
Qed.

Lemma chain_NoDup path cur rest :
  (∀ v, v ∉ nb v) → NoDup (path ++ [cur]) → chain nb path cur rest →
  NoDup (path ++ cur :: rest).
Proof.
  intros Hirr. revert path cur.
  induction rest as [|v rest IH]; intros path cur Hnd Hch; [done|].
  destruct Hch as (Hv & Hp & Hch).
  replace (path ++ cur :: v :: rest) with ((path ++ [cur]) ++ v :: rest)
    by (by rewrite <- app_assoc).
  apply IH; [|done].
  apply NoDup_app. split_and!; [done| |apply NoDup_singleton].
  intros u Hu ->%list_elem_of_singleton.
  apply elem_of_app in Hu as [Hu|Hu%list_elem_of_singleton]; [done|].
  subst. by apply (Hirr cur).
Qed.

Lemma chain_steps path cur rest (i : nat) a b :
  chain nb path cur rest →
  (cur :: rest) !! i = Some a → (cur :: rest) !! S i = Some b → b ∈ nb a.
Proof.
  revert path cur i. induction rest as [|v rest IH]; intros path cur i Hch Ha Hb.
  - by destruct i.
  - destruct Hch as (Hv & _ & Hch). destruct i as [|i].
    + simpl in *. congruence.
    + eapply (IH _ v i); eauto.
Qed.

Lemma chain_elem path cur rest v :
  chain nb path cur rest → v ∈ rest → ∃ u, v ∈ nb u.
Proof.
  revert path cur. induction rest as [|w rest IH]; intros path cur Hch Hv.
  - by apply elem_of_nil in Hv.
  - destruct Hch as (Hw & _ & Hch).
    apply elem_of_cons in Hv as [->|Hv]; eauto.
Qed.

End pure_search.

(** ** The search on the built graph *)

Section search_facts.
Context `{SetIter}.

Lemma neighbors_irrefl N v : v ∉ neighbors (build_graph N) v.
Proof.
  intros (_ & _ & Hs)%elem_of_neighbors_build_graph.
  by apply knight_step_irrefl in Hs.
Qed.

Lemma search_fuel_enough N :
  1 ≤ N →
  Z.of_nat (length (@nil vertex)) + 1 ≤ N * N ∧
  N * N ≤ Z.of_nat (length (@nil vertex) + search_fuel (N * N)).
Proof. intros HN. unfold search_fuel. simpl. nia. Qed.

Lemma fails_from_small :
  forallb (λ N, forallb (fails_from N) (board_cells N)) [2; 3; 4] = true.
Proof. vm_compute. reflexivity. Qed.

(** On the boards of side 2, 3 and 4 no chain of moves fills the board. *)
Lemma traverse_pure_small N r c x :
  N = 2 ∨ N = 3 ∨ N = 4 →
  traverse_pure (neighbors (build_graph N)) (N * N) (search_fuel (N * N))
    [] (r, c) = Some x →
  is_failure x.
Proof.
  intros HN Hx.
  destruct (traverse_pure_value _ _ _ _ _ _ Hx) as [(a & l & ->)|]; [|done].
  exfalso.
  destruct (decide (in_range N (r, c))) as [Hin|Hout].
  - apply traverse_pure_sound in Hx as (rest & Hl & Hlen & Hch).
    destruct (traverse_pure_complete (H := elements_iter)
                (neighbors (build_graph N)) (N * N)
                (search_fuel (N * N)) [] (r, c) rest) as [l' Hl'];
      [unfold search_fuel; simpl; lia|by rewrite <- Hl|done|].
    pose proof fails_from_small as Hsmall.
    rewrite forallb_forall in Hsmall.
    assert (fails_from N (r, c) = true) as Hf.
    { assert (In N [2; 3; 4]) as HNin by (simpl; lia).
      specialize (Hsmall N HNin). rewrite forallb_forall in Hsmall.
      by apply Hsmall, list_elem_of_In, elem_of_board_cells. }
    unfold fails_from in Hf. by rewrite Hl' in Hf.
  - unfold search_fuel in Hx.
    rewrite traverse_pure_fresh in Hx
      by by apply neighbors_build_graph_outside.
    simpl in Hx. rewrite decide_False in Hx by lia. done.
Qed.

End search_facts.

(** ** Properties of the program *)

(** C1. For every board size N >= 1 and every start vertex on the board,
    when the search returns a list, the list has N*N elements, holds every
    cell of the board exactly once, starts at the start vertex, and each
    element is a knight's move from the one before it, which is an edge of
    the built graph. *)
Theorem search_returns_tour `{SetIter} (N r c : Z) (l : list vertex) :
  1 ≤ N →
  in_range N (r, c) →
  fst <$> search warnsdorffs_heuristic N r c = Some (PyList l) →
  hamiltonian_tour N (r, c) l.
Proof.
  intros _ Hstart. rewrite search_value.
  intros (rest & -> & Hlen & Hch)%traverse_pure_sound. simpl in *.
  assert (NoDup ((r, c) :: rest)) as Hnd.
  { apply (chain_NoDup (neighbors (build_graph N)) [] (r, c) rest);
      [|apply NoDup_singleton|done].
    intros v. apply neighbors_irrefl. }
  assert (∀ v, v ∈ (r, c) :: rest → v ∈ board_cells N) as Hsub.
  { intros v [->|Hv]%elem_of_cons; apply elem_of_board_cells; [done|].
    destruct (chain_elem _ _ _ _ v Hch Hv) as [u Hu].
    by apply elem_of_neighbors_build_graph in Hu as (_ & ? & _). }
  assert (0 ≤ N) as HN by (unfold in_range in Hstart; simpl in Hstart; lia).
  split_and!; [done|done| |done|].
  - apply submseteq_length_Permutation; [by apply NoDup_submseteq|].
    pose proof (length_board_cells N HN). simpl. lia.
  - intros i a b Ha Hb.
    pose proof (chain_steps _ _ _ _ i a b Hch Ha Hb) as Hab.
    split; [|done]. by apply elem_of_neighbors_build_graph in Hab as (_ & _ & ?).
Qed.

Lemma search_returns_tour_5x5 :
  in_range 5 (0, 0) ∧
  fst <$> search (H := elements_iter) warnsdorffs_heuristic 5 0 0
    = Some (PyList tour_5x5) ∧
  hamiltonian_tour 5 (0, 0) tour_5x5.
Proof.
  assert (in_range 5 (0, 0)) as Hin by (unfold in_range; simpl; lia).
  assert (fst <$> search (H := elements_iter) warnsdorffs_heuristic 5 0 0
          = Some (PyList tour_5x5)) as Hs by (vm_compute; reflexivity).
  split_and!; [done|done|].
  apply (search_returns_tour (H := elements_iter) 5 0 0 tour_5x5);
    [lia|done|done].
Defined.

(** C2. On the 2 x 2 board from (0,0) the search ends with the failure value
    [False]; [find_knights_tour] then iterates over that value while it
    writes the solution and raises [TypeError] instead of handing the failure
    to its caller. *)
Theorem no_tour_raises_TypeError `{SetIter} :
  search warnsdorffs_heuristic 2 0 0 = Some (PyFalse, {[(0, 0) := ∅]}) ∧
  find_knights_tour warnsdorffs_heuristic 2 0 0 = Some (Raises TypeError).
Proof.
  assert (search warnsdorffs_heuristic 2 0 0 = Some (PyFalse, {[(0, 0) := ∅]}))
    as Hs.
  { assert (build_graph 2 = ∅) as Hg by (by vm_compute).
    rewrite search_unfold, Hg. rewrite decide_False; [done|].
    intros [Hd|?]; [set_solver|lia]. }
  split; [done|]. unfold find_knights_tour. by rewrite Hs.
Qed.

(** C3 (as the program behaves). [find_knights_tour] checks neither the board
    size nor the start vertex: with a board size <= 0 or a start vertex off
    the board the graph is built and [traverse] is called.  When the square
    of the board size is 1 it returns the one-element list of the start
    vertex; otherwise it reads the neighbour set of the start vertex, which
    stores an empty set under that key, and returns [False], the value a dead
    end of any search gives. *)
Theorem search_without_validation `{SetIter} (N r c : Z) :
  N ≤ 0 ∨ ¬ in_range N (r, c) →
  search warnsdorffs_heuristic N r c =
  if decide (N * N = 1)
  then Some (PyList [(r, c)], build_graph N)
  else Some (PyFalse, <[(r, c) := ∅]> (build_graph N)).
Proof.
  intros Hbad.
  assert ((r, c) ∉ dom (build_graph N)) as Hd.
  { intros [Hin _]%elem_of_dom_build_graph.
    destruct Hbad as [?|?]; [|done].
    unfold in_range in Hin; simpl in Hin; lia. }
  unfold search, search_fuel. rewrite traverse_fresh by done. simpl.
  repeat case_decide; done || lia.
Qed.

Lemma search_without_validation_8_9_9 :
  ¬ in_range 8 (9, 9) ∧
  search (H := elements_iter) warnsdorffs_heuristic 8 9 9 =
  Some (PyFalse, <[(9, 9) := ∅]> (build_graph 8)).
Proof.
  assert (¬ in_range 8 (9, 9)) as Hout
    by (unfold in_range; simpl; lia).
  split; [done|].
  apply (search_without_validation (H := elements_iter) 8 9 9). by right.
Defined.

(** C3 as stated fails: a board of size 0 gives what a search with no tour
    gives (and the start vertex was read from the graph), and a start vertex
    off the board of size 1 is answered with a list. *)
Lemma invalid_input_not_rejected :
  find_knights_tour (H := elements_iter) warnsdorffs_heuristic 0 0 0 =
    find_knights_tour (H := elements_iter) warnsdorffs_heuristic 2 0 0 ∧
  search (H := elements_iter) warnsdorffs_heuristic 0 0 0 =
    Some (PyFalse, {[(0, 0) := ∅]}) ∧
  ¬ in_range 1 (5, 5) ∧
  find_knights_tour (H := elements_iter) warnsdorffs_heuristic 1 5 5 =
    Some (Returns (PyList [(5, 5)])).
Proof.
  split_and!; [by vm_compute|by vm_compute| |by vm_compute].
  unfold in_range; simpl; lia.
Qed.

(** C4 (as the program behaves). At every step of the search on the built
    graph at which some neighbour of the current vertex is unvisited, the
    candidates are attempted in ascending order of the degree; candidates of
    equal degree keep the order in which the set of unvisited neighbours is
    iterated (the sort is stable); and a true result of the step is the
    result of the first candidate whose attempt is true, whatever the
    candidates after it would give. *)
Theorem traverse_step_ordered `{SetIter} (N : Z) (fuel : nat)
    (path : list vertex) (cur : vertex) :
  Z.of_nat (length path) + 1 ≠ N * N →
  neighbors (build_graph N) cur ∖ list_to_set path ≠ ∅ →
  ∃ next_vertices, step_ordered N fuel path cur next_vertices.
Proof.
  intros Hlen Hyet. set (g := build_graph N).
  assert (closed g) as Hg by apply closed_build_graph.
  assert (cur ∈ dom g) as Hcur.
  { destruct (decide (cur ∈ dom g)) as [|Hd]; [done|].
    apply getitem_fresh in Hd as [_ Hnb]. fold g in Hyet. set_solver. }
  set (yet := neighbors g cur ∖ list_to_set path).
  assert (Forall (λ v, v ∈ dom g) (set_iter yet)) as Hdom.
  { apply Forall_forall. intros v Hv. rewrite set_iter_perm in Hv.
    apply elem_of_elements, elem_of_difference in Hv as [Hv _]. eauto. }
  set (next := sorted_pure (λ v, size (neighbors g v)) (set_iter yet)).
  assert (traverse warnsdorffs_heuristic (N * N) (S fuel) path cur g =
          first_true (map (traverse warnsdorffs_heuristic (N * N) fuel
                             (path ++ [cur])) next) g) as Hstep.
  { simpl. rewrite decide_False by done.
    rewrite bind_run, getitem_dom by done. fold yet.
    rewrite decide_False by done. by rewrite bind_run, sorted_dom. }
  assert (∀ v, v ∈ next →
            traverse warnsdorffs_heuristic (N * N) fuel (path ++ [cur]) v g =
            (λ x, (x, g)) <$>
              traverse_pure (neighbors g) (N * N) fuel (path ++ [cur]) v)
    as Hatt.
  { intros v Hv. apply traverse_closed; [done|].
    unfold next in Hv. rewrite sorted_pure_perm in Hv.
    by rewrite Forall_forall in Hdom; apply Hdom. }
  exists next. unfold step_ordered. fold g. fold yet.
  split_and!.
  - by apply sorted_dom.
  - unfold next. by rewrite sorted_pure_perm, set_iter_perm.
  - apply sorted_pure_sorted.
  - intros k. apply sorted_pure_stable.
  - done.
  - intros x Hx. rewrite Hstep.
    rewrite (first_true_closed g _
               (traverse_pure (neighbors g) (N * N) fuel (path ++ [cur])))
      by (apply Forall_forall; exact Hatt).
    split.
    + intros Hft.
      destruct (first_true_pure _) as [y|] eqn:Hy; [|done].
      injection Hft as ->.
      apply first_true_pure_split in Hy as (l1 & v & l2 & Hl & Hv & Hl1);
        [|done].
      exists l1, v, l2. split_and!; [done| |].
      * rewrite Hatt, Hv; [done|]. rewrite Hl. set_solver.
      * apply Forall_forall. intros u Hu.
        rewrite Forall_forall in Hl1. destruct (Hl1 u Hu) as (y & Hy & Hty).
        exists y. split; [|done]. rewrite Hatt, Hy; [done|].
        rewrite Hl. set_solver.
    + intros (l1 & v & l2 & Hl & Hv & Hl1).
      assert (first_true_pure
                (map (traverse_pure (neighbors g) (N * N) fuel (path ++ [cur]))
                   next) = Some x) as ->; [|done].
      apply first_true_pure_split; [done|].
      exists l1, v, l2. split_and!; [done| |].
      * rewrite Hatt in Hv by (rewrite Hl; set_solver).
        by destruct (traverse_pure _ _ _ _ v) as [z|]; simplify_eq/=.
      * apply Forall_forall. intros u Hu.
        rewrite Forall_forall in Hl1. destruct (Hl1 u Hu) as (y & Hy & Hty).
        exists y. split; [|done].
        rewrite Hatt in Hy by (rewrite Hl; set_solver).
        by destruct (traverse_pure _ _ _ _ u) as [z|]; simplify_eq/=.
Qed.

Lemma traverse_step_ordered_5x5 :
  neighbors (build_graph 5) (2, 2) ∖ list_to_set [] ≠ ∅ ∧
  ∃ next_vertices,
    step_ordered (H := row_major_iter) 5 24 [] (2, 2) next_vertices.
Proof.
  assert (neighbors (build_graph 5) (2, 2) ∖ list_to_set [] ≠ ∅) as Hyet.
  { intros Heq. vm_compute in Heq. discriminate Heq. }
  split; [done|].
  apply (traverse_step_ordered (H := row_major_iter) 5 24 [] (2, 2));
    [simpl; lia|done].
Defined.

(** C4 as stated fails: when sets are iterated rows first, the eight
    neighbours of the centre of the 5 x 5 board, all of degree 3, are
    attempted rows first and not in the order of [MOVE_OFFSETS]. *)
Lemma ties_not_in_offset_order :
  ¬ (∀ (O : SetIter) (N : Z) (path : list vertex) (cur : vertex)
       (next_vertices : list vertex) (g' : Graph) (k : nat),
       let g := build_graph N in
       let yet_to_visit := neighbors g cur ∖ list_to_set path in
       sorted warnsdorffs_heuristic (set_iter yet_to_visit) g
         = Some (next_vertices, g') →
       filter (λ v, size (neighbors g v) = k) next_vertices =
       filter (λ v, size (neighbors g v) = k)
              (offset_order N cur yet_to_visit)).
Proof.
  intros Hclaim.
  pose proof (Hclaim row_major_iter 5 [] (2, 2)
                [(0, 1); (0, 3); (1, 0); (1, 4); (3, 0); (3, 4); (4, 1); (4, 3)]
                (build_graph 5) 3%nat) as Hties.
  cbv zeta in Hties. specialize (Hties ltac:(vm_compute; reflexivity)).
  vm_compute in Hties. discriminate Hties.
Qed.

(** C5. The heuristic's score of a vertex is the size of the neighbour set
    stored for it in the graph; it takes no path, so visited cells are not
    excluded.  On the built graph it is the number of knight moves from the
    vertex that stay on the board. *)
Theorem warnsdorffs_heuristic_degree (g : Graph) (v : vertex) (N r c : Z) :
  fst <$> warnsdorffs_heuristic v g = Some (size (neighbors g v)) ∧
  (in_range N (r, c) →
   fst <$> warnsdorffs_heuristic (r, c) (build_graph N)
     = Some (length (legal_moves_from r c N))).
Proof.
  assert (∀ g v, fst <$> warnsdorffs_heuristic v g
                 = Some (size (neighbors g v))) as Hdeg.
  { clear. intros g v. unfold warnsdorffs_heuristic, neighbors.
    rewrite bind_run. unfold getitem. by destruct (g !! v). }
  split; [apply Hdeg|]. intros Hin.
  rewrite Hdeg, neighbors_build_graph by done.
  by rewrite size_list_to_set by apply NoDup_legal_moves_from.
Qed.

Lemma warnsdorffs_heuristic_degree_corner :
  in_range 8 (0, 0) ∧
  fst <$> warnsdorffs_heuristic (0, 0) (build_graph 8)
    = Some (length (legal_moves_from 0 0 8)).
Proof.
  assert (in_range 8 (0, 0)) as Hin by (unfold in_range; simpl; lia).
  split; [done|].
  by apply (warnsdorffs_heuristic_degree ∅ (0, 0) 8 0 0).
Defined.

(** C6. For every board size N >= 1 the built graph is symmetric: B is a
    neighbour of A exactly when A is a neighbour of B. *)
Theorem build_graph_symmetric (N : Z) (A B : vertex) :
  1 ≤ N →
  B ∈ neighbors (build_graph N) A ↔ A ∈ neighbors (build_graph N) B.
Proof.
  intros _. rewrite !elem_of_neighbors_build_graph.
  split; intros (? & ? & ?%knight_step_sym); done.
Qed.

Lemma build_graph_symmetric_3x3 :
  1 ≤ 3 ∧
  ((1, 2) ∈ neighbors (build_graph 3) (0, 0) ↔
   (0, 0) ∈ neighbors (build_graph 3) (1, 2)).
Proof.
  split; [lia|]. apply (build_graph_symmetric 3 (0, 0) (1, 2)). lia.
Defined.

(** C7 (as the program behaves). The keys of the built graph are the cells
    of the board from which a knight can move at all.  From side 4 on these
    are all N*N cells.  The boards of side 1 and 2 give the empty mapping,
    the board of side 3 gives 8 keys (the centre is missing); a cell that is
    not a key reads as the empty neighbour set. *)
Theorem build_graph_vertices (N : Z) :
  (∀ v, v ∈ dom (build_graph N) ↔
        in_range N v ∧ ∃ w, in_range N w ∧ knight_step v w) ∧
  (4 ≤ N →
   dom (build_graph N) = list_to_set (board_cells N) ∧
   Z.of_nat (size (dom (build_graph N))) = N * N) ∧
  build_graph 1 = ∅ ∧ neighbors (build_graph 1) (0, 0) = ∅ ∧
  build_graph 2 = ∅ ∧ size (dom (build_graph 3)) = 8%nat.
Proof.
  split_and!; [apply elem_of_dom_build_graph| |by vm_compute..].
  intros HN.
  assert (dom (build_graph N) = list_to_set (board_cells N)) as Hdom.
  { apply set_eq; intros v.
    rewrite elem_of_dom_build_graph, elem_of_list_to_set, elem_of_board_cells.
    split; [tauto|]. intros Hv. split; [done|]. by apply has_move. }
  split; [done|].
  rewrite Hdom, size_list_to_set by apply NoDup_board_cells.
  apply length_board_cells. lia.
Qed.

Lemma build_graph_vertices_4x4 :
  4 ≤ 4 ∧
  dom (build_graph 4) = list_to_set (board_cells 4) ∧
  Z.of_nat (size (dom (build_graph 4))) = 4 * 4.
Proof.
  split; [lia|].
  destruct (build_graph_vertices 4) as (_ & Hall & _). apply Hall. lia.
Defined.

(** C7 as stated fails on the board of side 1: the built graph has no
    vertex, and it is not the single vertex (0,0) with no neighbour. *)
Lemma build_graph_1_has_no_vertex :
  Z.of_nat (size (dom (build_graph 1))) ≠ 1 * 1 ∧
  build_graph 1 ≠ {[(0, 0) := ∅]}.
Proof.
  split.
  - by vm_compute.
  - intros Heq. vm_compute in Heq. discriminate Heq.
Qed.

(** C8 (as the program behaves). The search adds no edge and changes no
    neighbour set: every read during the search sees the neighbour sets of
    the built graph, so the result is that of the search over that fixed
    neighbour function.  The only key the search can add is the start
    vertex, with an empty set, when the start vertex is not a key of the
    built graph and the board has more than one cell to visit. *)
Theorem search_leaves_neighbors `{SetIter} (N r c : Z) (x : value) (g' : Graph) :
  search warnsdorffs_heuristic N r c = Some (x, g') →
  (∀ v, neighbors g' v = neighbors (build_graph N) v) ∧
  g' = (if decide ((r, c) ∈ dom (build_graph N) ∨ N * N = 1)
        then build_graph N
        else <[(r, c) := ∅]> (build_graph N)) ∧
  traverse_pure (neighbors (build_graph N)) (N * N) (search_fuel (N * N))
    [] (r, c) = Some x.
Proof.
  intros Hs.
  assert (traverse_pure (neighbors (build_graph N)) (N * N)
            (search_fuel (N * N)) [] (r, c) = Some x) as Hpure.
  { by rewrite <- search_value, Hs. }
  rewrite search_unfold in Hs. case_decide as Hd.
  - rewrite Hpure in Hs. by simplify_eq/=.
  - simplify_eq/=. split_and!; [|done..].
    apply Decidable.not_or in Hd as [Hd _].
    apply getitem_fresh in Hd as [_ Hnb].
    intros v. unfold neighbors at 1. rewrite lookup_insert.
    destruct (decide ((r, c) = v)) as [<-|Hv]; [simpl; by rewrite Hnb|done].
Qed.

Lemma search_leaves_neighbors_5x5 :
  (∀ v, neighbors (build_graph 5) v = neighbors (build_graph 5) v) ∧
  build_graph 5 = (if decide ((0, 0) ∈ dom (build_graph 5) ∨ 5 * 5 = 1)
                   then build_graph 5
                   else <[(0, 0) := ∅]> (build_graph 5)) ∧
  traverse_pure (H := elements_iter) (neighbors (build_graph 5)) (5 * 5)
    (search_fuel (5 * 5)) [] (0, 0) = Some (PyList tour_5x5).
Proof.
  apply (search_leaves_neighbors (H := elements_iter) 5 0 0).
  vm_compute. reflexivity.
Defined.

(** C8 as stated fails: on the 2 x 2 board the search from (0,0) leaves a
    graph with the vertex (0,0), which the built graph does not have. *)
Lemma search_adds_start_vertex :
  ¬ (∀ (O : SetIter) (N r c : Z) (x : value) (g' : Graph),
       search warnsdorffs_heuristic N r c = Some (x, g') →
       g' = build_graph N).
Proof.
  intros Hclaim.
  assert (search (H := elements_iter) warnsdorffs_heuristic 2 0 0 =
          Some (PyFalse, ({[(0, 0) := ∅]} : Graph))) as Hs
    by (vm_compute; reflexivity).
  apply Hclaim in Hs. vm_compute in Hs. discriminate Hs.
Qed.

(** C9. For every board size N >= 1 and every start vertex the search
    returns, with the budget of one call per cell and with any larger one,
    a non-empty list or a failure; on the boards of side 2, 3 and 4 it
    returns a failure from every start vertex. *)
Theorem search_terminates `{SetIter} (N r c : Z) :
  1 ≤ N →
  ∃ x g',
    search warnsdorffs_heuristic N r c = Some (x, g') ∧
    (∀ k : nat,
       traverse warnsdorffs_heuristic (N * N) (search_fuel (N * N) + k)
         [] (r, c) (build_graph N) = Some (x, g')) ∧
    ((∃ a l, x = PyList (a :: l)) ∨ is_failure x) ∧
    (N = 2 ∨ N = 3 ∨ N = 4 → is_failure x).
Proof.
  intros HN.
  destruct (search_fuel_enough N HN) as [Hlo Hhi].
  destruct (traverse_pure_total (neighbors (build_graph N)) (N * N)
              (search_fuel (N * N)) [] (r, c) Hlo Hhi) as [x Hx].
  exists x.
  exists (if decide ((r, c) ∈ dom (build_graph N) ∨ N * N = 1)
          then build_graph N else <[(r, c) := ∅]> (build_graph N)).
  assert (∀ k : nat,
            traverse warnsdorffs_heuristic (N * N) (search_fuel (N * N) + k)
              [] (r, c) (build_graph N) =
            Some (x, if decide ((r, c) ∈ dom (build_graph N) ∨ N * N = 1)
                     then build_graph N
                     else <[(r, c) := ∅]> (build_graph N))) as Hall.
  { intros k. pose proof (traverse_pure_fuel _ _ _ k _ _ _ Hx) as Hk.
    unfold search_fuel in *. rewrite Nat.add_succ_l in *.
    rewrite traverse_build_graph. case_decide as Hd; [by rewrite Hk|].
    apply Decidable.not_or in Hd as [Hd Hn].
    pose proof (getitem_fresh _ _ Hd) as [_ Hnb].
    rewrite traverse_pure_fresh in Hx by done. simpl in Hx.
    rewrite decide_False in Hx by lia. by injection Hx as <-. }
  split_and!.
  - unfold search. specialize (Hall 0%nat). by rewrite Nat.add_0_r in Hall.
  - done.
  - by eapply traverse_pure_value.
  - intros Hsmall. by eapply traverse_pure_small.
Qed.

Lemma search_terminates_4x4 :
  1 ≤ 4 ∧
  ∃ x g',
    search (H := row_major_iter) warnsdorffs_heuristic 4 0 0 = Some (x, g') ∧
    (∀ k : nat,
       traverse (H := row_major_iter) warnsdorffs_heuristic (4 * 4)
         (search_fuel (4 * 4) + k) [] (0, 0) (build_graph 4) = Some (x, g')) ∧
    ((∃ a l, x = PyList (a :: l)) ∨ is_failure x) ∧
    (4 = 2 ∨ 4 = 3 ∨ 4 = 4 → is_failure x).
Proof.
  split; [lia|]. apply (search_terminates (H := row_major_iter) 4 0 0). lia.
Defined.

(** C10. On the board of side 1 the search returns the one-element list of
    the start vertex for every start vertex, on the board or not, and
    whatever the heuristic: the length test succeeds before the graph, which
    is empty, is read. *)
Theorem search_1x1_any_start `{SetIter} (heuristic : vertex → M nat) (r c : Z) :
  search heuristic 1 r c = Some (PyList [(r, c)], build_graph 1) ∧
  build_graph 1 = ∅ ∧
  find_knights_tour heuristic 1 r c = Some (Returns (PyList [(r, c)])).
Proof.
  assert (search heuristic 1 r c = Some (PyList [(r, c)], build_graph 1))
    as Hs by reflexivity.
  split_and!; [done|by vm_compute|].
  unfold find_knights_tour. by rewrite Hs.
Qed.

(** ** Runs of the program *)

Example search_5x5_center :
  fst <$> search (H := row_major_iter) warnsdorffs_heuristic 5 2 2 =
  Some (PyList
    [(2, 2); (0, 1); (1, 3); (3, 4); (4, 2); (3, 0); (1, 1); (0, 3); (2, 4);
     (4, 3); (3, 1); (1, 0); (0, 2); (1, 4); (3, 3); (4, 1); (2, 0); (1, 2);
     (0, 0); (2, 1); (4, 0); (3, 2); (4, 4); (2, 3); (0, 4)]).
Proof. vm_compute. reflexivity. Qed.

Example search_3x3_corner :
  fst <$> search (H := row_major_iter) warnsdorffs_heuristic 3 0 0 =
  Some PyNone.
Proof. vm_compute. reflexivity. Qed.

Example search_minus_1 :
  find_knights_tour (H := elements_iter) warnsdorffs_heuristic (-1) 0 0 =
  Some (Returns (PyList [(0, 0)])).
Proof. vm_compute. reflexivity. Qed.

(** ** Further properties of the move graph *)

(** X1. [legal_moves_from] yields exactly the cells of the board a knight's
    move away from [(row, col)], each once, at most eight, in the order of
    [MOVE_OFFSETS]; it does not ask [(row, col)] itself to be on the board. *)
Theorem legal_moves_from_yields (row col N : Z) :
  (∀ w, w ∈ legal_moves_from row col N ↔
        in_range N w ∧ knight_step (row, col) w) ∧
  NoDup (legal_moves_from row col N) ∧
  (length (legal_moves_from row col N) ≤ 8)%nat ∧
  legal_moves_from row col N `sublist_of`
    map (λ o : Z * Z, (row + o.1, col + o.2)) MOVE_OFFSETS.
Proof.
  split_and!.
  - intros w. apply elem_of_legal_moves_from.
  - apply NoDup_legal_moves_from.
  - unfold legal_moves_from. etrans; [apply length_filter|].
    by rewrite length_map.
  - apply sublist_filter.
Qed.

(** X2. No vertex of the built graph has more than eight neighbours, and on
    a board of side four or more every cell has at least two. *)
Theorem build_graph_degree_bounds (N : Z) (v : vertex) :
  (size (neighbors (build_graph N) v) ≤ 8)%nat ∧
  (4 ≤ N → in_range N v → (2 ≤ size (neighbors (build_graph N) v))%nat).
Proof.
  split.
  - destruct (decide (in_range N v)) as [Hin|Hout].
    + destruct v as [r c]. rewrite neighbors_build_graph by done.
      rewrite size_list_to_set by apply NoDup_legal_moves_from.
      unfold legal_moves_from. etrans; [apply length_filter|].
      by rewrite length_map.
    + rewrite neighbors_build_graph_outside by done.
      rewrite size_empty. lia.
  - intros HN Hin. destruct v as [r c].
    set (w1 := (if decide (r + 2 < N) then r + 2 else r - 2,
                if decide (c + 1 < N) then c + 1 else c - 1)).
    set (w2 := (if decide (r + 1 < N) then r + 1 else r - 1,
                if decide (c + 2 < N) then c + 2 else c - 2)).
    assert (w1 ∈ neighbors (build_graph N) (r, c)) as H1.
    { apply elem_of_neighbors_build_graph. unfold w1, in_range, knight_step in *.
      rewrite elem_of_MOVE_OFFSETS. simpl in *. repeat case_decide; lia. }
    assert (w2 ∈ neighbors (build_graph N) (r, c)) as H2.
    { apply elem_of_neighbors_build_graph. unfold w2, in_range, knight_step in *.
      rewrite elem_of_MOVE_OFFSETS. simpl in *. repeat case_decide; lia. }
    assert (w1 ≠ w2) as Hne.
    { unfold w1, w2. intros [= Hr Hc]. repeat case_decide; lia. }
    assert (size ({[w1]} ∪ {[w2]} : gset vertex) = 2%nat) as Hsz.
    { rewrite size_union by set_solver. by rewrite !size_singleton. }
    rewrite <- Hsz. apply subseteq_size. set_solver.
Qed.

Lemma build_graph_degree_bounds_corner :
  in_range 8 (0, 0) ∧
  (2 ≤ size (neighbors (build_graph 8%Z) (0%Z, 0%Z)))%nat.
Proof.
  assert (in_range 8 (0, 0)) as Hin by (unfold in_range; simpl; lia).
  split; [done|].
  destruct (build_graph_degree_bounds 8 (0, 0)) as [_ Hlow].
  apply Hlow; [lia|done].
Defined.

(** X3. For every board size up to 2, zero and negative sizes included, the
    built graph is the empty mapping: no cell has a knight move. *)
Theorem build_graph_tiny (N : Z) : N ≤ 2 → build_graph N = ∅.
Proof.
  intros HN. apply dom_empty_inv_L, set_eq. intros v.
  rewrite elem_of_dom_build_graph. split; [|set_solver].
  intros (Hv & w & Hw & Hs). exfalso.
  unfold in_range, knight_step in *. rewrite elem_of_MOVE_OFFSETS in Hs.
  destruct v as [r c], w as [r' c']. simpl in *. lia.
Qed.

Lemma build_graph_tiny_0 : 0 ≤ 2 ∧ build_graph 0 = ∅.
Proof. split; [lia|]. apply (build_graph_tiny 0). lia. Defined.

(** X4. Every entry of the built graph is a cell of the board with a
    non-empty neighbour set that does not hold the cell itself and whose
    members are keys of the graph too. *)
Theorem build_graph_entries (N : Z) (v : vertex) (s : gset vertex) :
  build_graph N !! v = Some s →
  in_range N v ∧ s ≠ ∅ ∧ (v ∉ s) ∧ ∀ w, w ∈ s → w ∈ dom (build_graph N).
Proof.
  intros Hv.
  assert (neighbors (build_graph N) v = s) as Hs
    by (unfold neighbors; by rewrite Hv).
  apply elem_of_dom_2, elem_of_dom_build_graph in Hv as (Hin & w & Hw & Hst).
  split_and!.
  - done.
  - intros Hempty.
    assert (w ∈ neighbors (build_graph N) v) as Hmem
      by by apply elem_of_neighbors_build_graph.
    rewrite Hs, Hempty in Hmem. set_solver.
  - rewrite <- Hs. apply neighbors_irrefl.
  - intros u Hu. rewrite <- Hs in Hu. by apply (closed_build_graph N v).
Qed.

Lemma build_graph_entries_3x3 :
  build_graph 3 !! (0, 0) = Some ({[(1, 2); (2, 1)]} : gset vertex) ∧
  in_range 3 (0, 0) ∧ ({[(1, 2); (2, 1)]} : gset vertex) ≠ ∅ ∧
  ((0, 0) ∉ ({[(1, 2); (2, 1)]} : gset vertex)) ∧
  ∀ w, w ∈ ({[(1, 2); (2, 1)]} : gset vertex) → w ∈ dom (build_graph 3).
Proof.
  assert (build_graph 3 !! (0, 0) = Some ({[(1, 2); (2, 1)]} : gset vertex))
    as Hv by (vm_compute; reflexivity).
  split; [done|]. by apply (build_graph_entries 3 (0, 0)).
Defined.

(** X5. [add_edge] records the edge in both directions, leaves every other
    entry alone, is idempotent, and does not depend on the order of its two
    vertices. *)
Theorem add_edge_laws (g : Graph) (a b : vertex) :
  b ∈ neighbors (add_edge g a b) a ∧
  a ∈ neighbors (add_edge g a b) b ∧
  (∀ v, v ≠ a → v ≠ b → add_edge g a b !! v = g !! v) ∧
  dom (add_edge g a b) = {[a; b]} ∪ dom g ∧
  add_edge (add_edge g a b) a b = add_edge g a b ∧
  add_edge g a b = add_edge g b a.
Proof.
  assert (∀ g a b v, add_edge g a b !! v =
            if decide (v = a ∨ v = b)
            then Some (neighbors g v ∪ (if decide (v = a) then {[b]} else ∅)
                                     ∪ (if decide (v = b) then {[a]} else ∅))
            else g !! v) as Hlook.
  { clear. intros g a b v. unfold add_edge. unfold set_add at 1.
    rewrite lookup_insert, neighbors_set_add. unfold set_add.
    rewrite lookup_insert.
    repeat case_decide; subst; try done; try (f_equal; set_solver); tauto. }
  split_and!.
  - rewrite elem_of_neighbors_add_edge. tauto.
  - rewrite elem_of_neighbors_add_edge. tauto.
  - intros v Ha Hb. rewrite Hlook. rewrite decide_False; [done|tauto].
  - apply dom_add_edge.
  - apply map_eq. intros v. rewrite !Hlook.
    case_decide as Hv; [|done]. f_equal.
    unfold neighbors at 1. rewrite Hlook, decide_True by done. simpl.
    repeat case_decide; set_solver.
  - apply map_eq. intros v. rewrite !Hlook.
    repeat case_decide; try done; try tauto; f_equal; set_solver.
Qed.

(** X6. [add_edge] keeps a symmetric graph symmetric. *)
Theorem add_edge_symmetric (g : Graph) (a b : vertex) :
  symmetric g → symmetric (add_edge g a b).
Proof.
  intros Hg v w. rewrite !elem_of_neighbors_add_edge, (Hg v w). tauto.
Qed.

Lemma add_edge_symmetric_empty :
  symmetric ∅ ∧ symmetric (add_edge ∅ (0, 0) (1, 2)).
Proof.
  assert (symmetric ∅) as Hempty.
  { intros v w. unfold neighbors. rewrite !lookup_empty. simpl. set_solver. }
  split; [done|]. by apply (add_edge_symmetric ∅ (0, 0) (1, 2)).
Defined.

Lemma neighbors_opposite_colour (N : Z) (v w : vertex) :
  w ∈ neighbors (build_graph N) v →
  Z.even (w.1 + w.2) = negb (Z.even (v.1 + v.2)).
Proof.
  intros (_ & _ & Hs)%elem_of_neighbors_build_graph.
  unfold knight_step in Hs. rewrite elem_of_MOVE_OFFSETS in Hs.
  destruct v as [r c], w as [r' c']. simpl in *.
  replace (r' + c') with ((r + c) + (r' - r + (c' - c))) by lia.
  rewrite Z.even_add.
  destruct Hs as [[-> ->]|[[-> ->]|[[-> ->]|[[-> ->]|[[-> ->]|[[-> ->]|
                 [[-> ->]|[-> ->]]]]]]]]; simpl; by destruct (Z.even (r + c)).
Qed.

(** X7. Every edge of the built graph joins cells of opposite colours: the
    sums of the coordinates of its two ends have different parities. *)
Theorem build_graph_bipartite (N : Z) (v w : vertex) :
  w ∈ neighbors (build_graph N) v →
  Z.even (w.1 + w.2) = negb (Z.even (v.1 + v.2)).
Proof. apply neighbors_opposite_colour. Qed.

Lemma build_graph_bipartite_3x3 :
  (1, 2) ∈ neighbors (build_graph 3) (0, 0) ∧
  Z.even (1 + 2) = negb (Z.even (0 + 0)).
Proof.
  assert ((1, 2) ∈ neighbors (build_graph 3) (0, 0)) as Hin.
  { apply elem_of_neighbors_build_graph. unfold in_range, knight_step.
    rewrite elem_of_MOVE_OFFSETS. simpl. lia. }
  split; [done|]. by apply (build_graph_bipartite 3 (0, 0) (1, 2)).
Defined.

(** ** Further properties of the search *)

Section search_extras.
Context `{SetIter}.

(** A list returned by the search, as a chain of moves and as a tour. *)
Lemma search_list_chain N r c l :
  fst <$> search warnsdorffs_heuristic N r c = Some (PyList l) →
  ∃ rest, l = (r, c) :: rest ∧ Z.of_nat (length l) = N * N ∧
          chain (neighbors (build_graph N)) [] (r, c) rest.
Proof.
  rewrite search_value.
  intros (rest & -> & Hlen & Hch)%traverse_pure_sound. eauto.
Qed.

Lemma chain_tour N r c rest :
  in_range N (r, c) →
  Z.of_nat (length ((r, c) :: rest)) = N * N →
  chain (neighbors (build_graph N)) [] (r, c) rest →
  hamiltonian_tour N (r, c) ((r, c) :: rest).
Proof.
  intros Hstart Hlen Hch.
  assert (NoDup ((r, c) :: rest)) as Hnd.
  { apply (chain_NoDup (neighbors (build_graph N)) [] (r, c) rest);
      [|apply NoDup_singleton|done].
    intros v. apply neighbors_irrefl. }
  assert (∀ v, v ∈ (r, c) :: rest → v ∈ board_cells N) as Hsub.
  { intros v [->|Hv]%elem_of_cons; apply elem_of_board_cells; [done|].
    destruct (chain_elem _ _ _ _ v Hch Hv) as [u Hu].
    by apply elem_of_neighbors_build_graph in Hu as (_ & ? & _). }
  assert (0 ≤ N) as HN by (unfold in_range in Hstart; simpl in Hstart; lia).
  split_and!; [done|done| |done|].
  - apply submseteq_length_Permutation; [by apply NoDup_submseteq|].
    pose proof (length_board_cells N HN). lia.
  - intros i a b Ha Hb.
    pose proof (chain_steps _ _ _ _ i a b Hch Ha Hb) as Hab.
    split; [|done]. by apply elem_of_neighbors_build_graph in Hab as (_ & _ & ?).
Qed.

(** A duplicate-free list whose consecutive elements are adjacent is a
    chain. *)
Lemma steps_chain (nb : vertex → gset vertex) path cur rest :
  NoDup (path ++ cur :: rest) →
  (∀ (i : nat) a b, (cur :: rest) !! i = Some a →
     (cur :: rest) !! S i = Some b → b ∈ nb a) →
  chain nb path cur rest.
Proof.
  revert path cur. induction rest as [|v rest IH]; intros path cur Hnd Hst.
  { done. }
  split_and!.
  - by apply (Hst 0%nat cur v).
  - intros Hv. apply NoDup_app in Hnd as (_ & Hdis & _).
    apply (Hdis v Hv). set_solver.
  - apply IH.
    + by rewrite <- app_assoc.
    + intros i a b Ha Hb. by apply (Hst (S i) a b).
Qed.

Lemma tour_chain N start l :
  hamiltonian_tour N start l →
  ∃ rest, l = start :: rest ∧
          chain (neighbors (build_graph N)) [] start rest.
Proof.
  intros (Hlen & Hnd & Hperm & Hhead & Hst).
  destruct l as [|a rest]; [done|]. injection Hhead as ->.
  exists rest. split; [done|]. apply steps_chain; [done|].
  intros i a b Ha Hb. by apply (Hst i a b).
Qed.

Lemma tour_start_in_range N start l :
  hamiltonian_tour N start l → in_range N start.
Proof.
  intros (Hlen & Hnd & Hperm & Hhead & Hst).
  destruct l as [|a rest]; [done|]. injection Hhead as ->.
  apply elem_of_board_cells. rewrite <- Hperm. by left.
Qed.

Lemma search_fuel_ge N : N * N ≤ Z.of_nat (search_fuel (N * N)).
Proof. unfold search_fuel. lia. Qed.

Lemma tour_found N r c :
  tour_exists N (r, c) →
  ∃ l g', search warnsdorffs_heuristic N r c = Some (PyList l, g') ∧
          hamiltonian_tour N (r, c) l.
Proof.
  intros [l0 Htour].
  pose proof (tour_start_in_range _ _ _ Htour) as Hin.
  destruct (tour_chain _ _ _ Htour) as (rest & -> & Hch).
  destruct Htour as (Hlen & _).
  destruct (traverse_pure_complete (neighbors (build_graph N)) (N * N)
              (search_fuel (N * N)) [] (r, c) rest) as [l Hl];
    [apply search_fuel_ge|done|done|].
  assert (fst <$> search warnsdorffs_heuristic N r c = Some (PyList l)) as Hs
    by by rewrite search_value.
  destruct (search warnsdorffs_heuristic N r c) as [[x g']|] eqn:Hsearch;
    [|done].
  simpl in Hs. injection Hs as ->. exists l, g'. split; [done|].
  assert (fst <$> search warnsdorffs_heuristic N r c = Some (PyList l)) as Hs
    by by rewrite Hsearch.
  apply search_list_chain in Hs as (rest' & -> & Hlen' & Hch').
  by apply chain_tour.
Qed.

End search_extras.

(** X8. The search is exhaustive: when some tour from the start vertex
    exists, the search returns a tour from it, whatever the order in which
    sets are iterated. *)
Theorem search_complete `{SetIter} (N r c : Z) :
  tour_exists N (r, c) →
  ∃ l g', search warnsdorffs_heuristic N r c = Some (PyList l, g') ∧
          hamiltonian_tour N (r, c) l.
Proof. apply tour_found. Qed.

Lemma search_complete_5x5 :
  tour_exists 5 (0, 0) ∧
  ∃ l g', search (H := row_major_iter) warnsdorffs_heuristic 5 0 0
            = Some (PyList l, g') ∧
          hamiltonian_tour 5 (0, 0) l.
Proof.
  assert (tour_exists 5 (0, 0)) as Hex.
  { exists tour_5x5.
    assert (fst <$> search (H := elements_iter) warnsdorffs_heuristic 5 0 0
            = Some (PyList tour_5x5)) as Hs by (vm_compute; reflexivity).
    apply (search_list_chain (H := elements_iter)) in Hs
      as (rest & Hl & Hlen & Hch).
    rewrite Hl in *. apply chain_tour; [|done..].
    unfold in_range; simpl; lia. }
  split; [done|].
  by apply (search_complete (H := row_major_iter) 5 0 0).
Defined.

(** X9. Whether the search finds a tour does not depend on the order in
    which sets are iterated; only which tour it finds does. *)
Theorem search_success_order_independent (O1 O2 : SetIter) (N r c : Z) :
  (∃ l, fst <$> search (H := O1) warnsdorffs_heuristic N r c
        = Some (PyList l)) ↔
  (∃ l, fst <$> search (H := O2) warnsdorffs_heuristic N r c
        = Some (PyList l)).
Proof.
  assert (∀ Oa Ob : SetIter,
            (∃ l, fst <$> search (H := Oa) warnsdorffs_heuristic N r c
                  = Some (PyList l)) →
            (∃ l, fst <$> search (H := Ob) warnsdorffs_heuristic N r c
                  = Some (PyList l))) as Hone.
  { intros Oa Ob [l Hl].
    apply (search_list_chain (H := Oa)) in Hl as (rest & -> & Hlen & Hch).
    rewrite (search_value (H := Ob)).
    apply (traverse_pure_complete (H := Ob) (neighbors (build_graph N))
             (N * N) (search_fuel (N * N)) [] (r, c) rest);
      [apply search_fuel_ge|done|done]. }
  split; apply Hone.
Qed.

(** X10. The two failure values of the search: it returns [False] exactly
    when the start vertex has no neighbour in the built graph and the board
    has more than one cell to visit; a start vertex with neighbours but no
    tour gives [None]. *)
Theorem search_false_iff_isolated_start `{SetIter} (N r c : Z) (x : value)
    (g' : Graph) :
  search warnsdorffs_heuristic N r c = Some (x, g') →
  (x = PyFalse ↔ N * N ≠ 1 ∧ neighbors (build_graph N) (r, c) = ∅).
Proof.
  intros Hs.
  assert (fst <$> search warnsdorffs_heuristic N r c = Some x) as Hx
    by by rewrite Hs.
  rewrite search_value in Hx. unfold search_fuel in Hx.
  rewrite traverse_pure_S in Hx. simpl in Hx.
  case_decide as Hn.
  { injection Hx as <-. split; [done|]. intros [? _]. lia. }
  rewrite difference_empty_L in Hx.
  case_decide as Hnb.
  { injection Hx as <-. split; [|done]. intros _. split; [lia|done]. }
  split; [|tauto]. intros ->. by apply first_true_pure_falsy in Hx.
Qed.

Lemma search_false_iff_isolated_start_3x3 :
  search (H := elements_iter) warnsdorffs_heuristic 3 1 1
    = Some (PyFalse, <[(1, 1) := ∅]> (build_graph 3)) ∧
  (PyFalse = PyFalse ↔ 3 * 3 ≠ 1 ∧ neighbors (build_graph 3) (1, 1) = ∅).
Proof.
  assert (search (H := elements_iter) warnsdorffs_heuristic 3 1 1
          = Some (PyFalse, <[(1, 1) := ∅]> (build_graph 3))) as Hs
    by (vm_compute; reflexivity).
  split; [done|].
  exact (search_false_iff_isolated_start (H := elements_iter) 3 1 1 _ _ Hs).
Defined.

(** ** Colours of the board *)

Section colours.
Implicit Types (v w : vertex) (l : list vertex).

Lemma sum_list_Z_app (l k : list Z) :
  sum_list_Z (l ++ k) = sum_list_Z l + sum_list_Z k.
Proof. induction l as [|x l IH]; simpl; [done|]. rewrite IH. lia. Qed.

Lemma sum_list_Z_cons (x : Z) (l : list Z) :
  sum_list_Z (x :: l) = x + sum_list_Z l.
Proof. reflexivity. Qed.

Lemma sum_list_Z_perm (l k : list Z) : l ≡ₚ k → sum_list_Z l = sum_list_Z k.
Proof. induction 1; simpl; lia. Qed.

Lemma sign_pair (r c : Z) : sign (r, c) = sign (r, 0) * sign (0, c).
Proof.
  unfold sign. simpl. rewrite Z.add_0_r, Z.add_0_l, Z.even_add.
  destruct (Z.even r), (Z.even c); simpl; lia.
Qed.

Lemma sum_sign_prod (rows cols : list Z) :
  sum_list_Z (sign <$> list_prod rows cols) =
  sum_list_Z ((λ r, sign (r, 0)) <$> rows) *
  sum_list_Z ((λ c, sign (0, c)) <$> cols).
Proof.
  induction rows as [|r rows IH]; [done|].
  change (list_prod (r :: rows) cols)
    with (map (λ y, (r, y)) cols ++ list_prod rows cols).
  rewrite fmap_app, sum_list_Z_app, IH, fmap_cons, sum_list_Z_cons.
  assert (sum_list_Z (sign <$> map (λ y, (r, y)) cols) =
          sign (r, 0) * sum_list_Z ((λ c, sign (0, c)) <$> cols)) as ->;
    [|ring].
  clear. induction cols as [|c cols IH]; [simpl; ring|].
  rewrite map_cons, !fmap_cons, !sum_list_Z_cons, IH, (sign_pair r c). ring.
Qed.

Lemma sum_sign_seqZ (n : nat) :
  sum_list_Z ((λ r, sign (r, 0)) <$> seqZ 0 (Z.of_nat n)) =
  if Z.even (Z.of_nat n) then 0 else 1.
Proof.
  induction n as [|n IH]; [done|].
  rewrite seqZ_S, fmap_app, sum_list_Z_app, IH, fmap_cons, sum_list_Z_cons.
  rewrite Nat2Z.inj_succ, Z.even_succ, <- Z.negb_even.
  unfold sign. simpl.
  replace (0 + Z.of_nat n + 0) with (Z.of_nat n) by lia.
  destruct (Z.even (Z.of_nat n)); simpl; lia.
Qed.

(** Along a chain of moves on the built graph the colours alternate. *)
Lemma chain_sign_sum N path cur rest :
  chain (neighbors (build_graph N)) path cur rest →
  sum_list_Z (sign <$> cur :: rest) =
  if Nat.even (length (cur :: rest)) then 0 else sign cur.
Proof.
  revert path cur. induction rest as [|v rest IH]; intros path cur Hch.
  { simpl. lia. }
  destruct Hch as (Hv & _ & Hch).
  rewrite fmap_cons, sum_list_Z_cons, (IH _ _ Hch).
  assert (sign v = - sign cur) as Hsign.
  { apply neighbors_opposite_colour in Hv. unfold sign. rewrite Hv.
    by destruct (Z.even (cur.1 + cur.2)). }
  change (length (cur :: v :: rest)) with (S (length (v :: rest))).
  rewrite Nat.even_succ, <- Nat.negb_even.
  destruct (Nat.even (length (v :: rest))); simpl; lia.
Qed.

Lemma sum_sign_board (N : Z) :
  Z.odd N = true → 0 ≤ N → sum_list_Z (sign <$> board_cells N) = 1.
Proof.
  intros Hodd HN. unfold board_cells. rewrite sum_sign_prod.
  assert (sum_list_Z ((λ c, sign (0, c)) <$> seqZ 0 N) =
          sum_list_Z ((λ r, sign (r, 0)) <$> seqZ 0 N)) as ->.
  { f_equal. apply list_fmap_ext. intros _ c _. unfold sign. simpl.
    by rewrite Z.add_0_r. }
  rewrite <- (Z2Nat.id N) by done. rewrite sum_sign_seqZ.
  rewrite Z2Nat.id by done. rewrite <- Z.negb_odd, Hodd. done.
Qed.

End colours.

(** X11. On a board of odd side the search fails from every start vertex
    whose coordinates have an odd sum, and [find_knights_tour] raises
    [TypeError]: a tour alternates colours, and such a start is on the colour
    with one cell less. *)
Theorem search_fails_odd_board `{SetIter} (N r c : Z) :
  Z.odd N = true → Z.odd (r + c) = true → in_range N (r, c) →
  ∃ x g', search warnsdorffs_heuristic N r c = Some (x, g') ∧
          is_failure x ∧
          find_knights_tour warnsdorffs_heuristic N r c
            = Some (Raises TypeError).
Proof.
  intros HoddN Hodd Hin.
  assert (1 ≤ N) as HN by (unfold in_range in Hin; simpl in Hin; lia).
  destruct (search_fuel_enough N HN) as [Hlo Hhi].
  destruct (traverse_pure_total (neighbors (build_graph N)) (N * N)
              (search_fuel (N * N)) [] (r, c) Hlo Hhi) as [x Hx].
  assert (fst <$> search warnsdorffs_heuristic N r c = Some x) as Hs
    by by rewrite search_value.
  destruct (search warnsdorffs_heuristic N r c) as [[x' g']|] eqn:Hsearch;
    [|done].
  simpl in Hs. injection Hs as ->. exists x, g'.
  assert (is_failure x) as Hfail.
  { destruct (traverse_pure_value _ _ _ _ _ _ Hx) as [(a & l & ->)|];
      [exfalso|done].
    apply traverse_pure_sound in Hx as (rest & Hl & Hlen & Hch).
    simpl in Hl. injection Hl as -> ->.
    pose proof (chain_tour N r c rest Hin Hlen Hch) as (_ & _ & Hperm & _).
    pose proof (chain_sign_sum _ _ _ _ Hch) as Hsum.
    rewrite (sum_list_Z_perm _ _ (fmap_Permutation sign _ _ Hperm)) in Hsum.
    rewrite sum_sign_board in Hsum by (done || lia).
    assert (Nat.even (length ((r, c) :: rest)) = false) as Hlenodd.
    { rewrite <- Nat.negb_odd. apply negb_false_iff.
      apply Nat.odd_spec. apply Z.odd_spec in HoddN as [k Hk].
      exists (Z.to_nat (2 * k * k + 2 * k)). lia. }
    rewrite Hlenodd in Hsum. unfold sign in Hsum. simpl in Hsum.
    rewrite <- Z.negb_odd, Hodd in Hsum. simpl in Hsum. lia. }
  split_and!; [done|done|].
  unfold find_knights_tour. rewrite Hsearch.
  by destruct Hfail as [-> | ->].
Qed.

Lemma search_fails_odd_board_5x5 :
  in_range 5 (0, 1) ∧
  ∃ x g', search (H := elements_iter) warnsdorffs_heuristic 5 0 1
            = Some (x, g') ∧
          is_failure x ∧
          find_knights_tour (H := elements_iter) warnsdorffs_heuristic 5 0 1
            = Some (Raises TypeError).
Proof.
  assert (in_range 5 (0, 1)) as Hin by (unfold in_range; simpl; lia).
  split; [done|].
  by apply (search_fails_odd_board (H := elements_iter) 5 0 1).
Defined.

(** X12. From a start vertex on the board, [find_knights_tour] returns a
    tour when some tour from that vertex exists, and raises [TypeError] when
    none does; it never returns [False] or [None]. *)
Theorem find_knights_tour_outcome `{SetIter} (N r c : Z) :
  in_range N (r, c) →
  ∃ res, find_knights_tour warnsdorffs_heuristic N r c = Some res ∧
    ((∃ l, res = Returns (PyList l) ∧ hamiltonian_tour N (r, c) l ∧
           tour_exists N (r, c)) ∨
     (res = Raises TypeError ∧ ¬ tour_exists N (r, c))).
Proof.
  intros Hin.
  assert (1 ≤ N) as HN by (unfold in_range in Hin; simpl in Hin; lia).
  destruct (search_fuel_enough N HN) as [Hlo Hhi].
  destruct (traverse_pure_total (neighbors (build_graph N)) (N * N)
              (search_fuel (N * N)) [] (r, c) Hlo Hhi) as [x Hx].
  assert (fst <$> search warnsdorffs_heuristic N r c = Some x) as Hs
    by by rewrite search_value.
  destruct (search warnsdorffs_heuristic N r c) as [[x' g']|] eqn:Hsearch;
    [|done].
  simpl in Hs. injection Hs as ->.
  unfold find_knights_tour. rewrite Hsearch.
  exists (write_solution x). split; [done|].
  destruct (traverse_pure_value _ _ _ _ _ _ Hx) as [(a & l & ->)|Hfail].
  - left. exists (a :: l). split; [done|].
    apply traverse_pure_sound in Hx as (rest & Hl & Hlen & Hch).
    simpl in Hl. rewrite Hl in *.
    assert (hamiltonian_tour N (r, c) ((r, c) :: rest)) by by apply chain_tour.
    split; [done|]. by eexists.
  - right. split; [by destruct Hfail as [-> | ->]|].
    intros (l & g'' & Hfound & _)%tour_found.
    rewrite Hsearch in Hfound. injection Hfound as -> _.
    by destruct Hfail.
Qed.

Lemma find_knights_tour_outcome_4x4 :
  in_range 4 (0, 0) ∧
  ∃ res, find_knights_tour (H := elements_iter) warnsdorffs_heuristic 4 0 0
           = Some res ∧
    ((∃ l, res = Returns (PyList l) ∧ hamiltonian_tour 4 (0, 0) l ∧
           tour_exists 4 (0, 0)) ∨
     (res = Raises TypeError ∧ ¬ tour_exists 4 (0, 0))).
Proof.
  assert (in_range 4 (0, 0)) as Hin by (unfold in_range; simpl; lia).
  split; [done|].
  by apply (find_knights_tour_outcome (H := elements_iter) 4 0 0).
Defined.

(** X13. A call of the heuristic on a vertex that is not a key of the graph
    returns 0 and makes the vertex a key with an empty set; on a key it
    leaves the graph as it is.  Either way no neighbour set changes, and a
    second call returns the same score and changes nothing more. *)
Theorem warnsdorffs_heuristic_read (g : Graph) (v : vertex) :
  ∃ g', warnsdorffs_heuristic v g = Some (size (neighbors g v), g') ∧
        g' = (if decide (v ∈ dom g) then g else <[v := ∅]> g) ∧
        (v ∉ dom g → size (neighbors g v) = 0%nat) ∧
        (∀ u, neighbors g' u = neighbors g u) ∧
        warnsdorffs_heuristic v g' = Some (size (neighbors g v), g').
Proof.
  destruct (decide (v ∈ dom g)) as [Hd|Hd].
  - exists g. rewrite warnsdorffs_heuristic_dom by done. done.
  - pose proof (getitem_fresh g v Hd) as [Hget Hnb].
    exists (<[v := ∅]> g).
    assert (∀ u, neighbors (<[v := ∅]> g) u = neighbors g u) as Hsame.
    { intros u. unfold neighbors at 1. rewrite lookup_insert.
      destruct (decide (v = u)) as [<-|]; [by rewrite Hnb|done]. }
    split_and!.
    + unfold warnsdorffs_heuristic. rewrite bind_run, Hget, Hnb. done.
    + done.
    + intros _. by rewrite Hnb, size_empty.
    + done.
    + rewrite warnsdorffs_heuristic_dom, Hsame; [done|].
      rewrite dom_insert_L. set_solver.
Qed.

(** X14. [first_true] stops at the first item that is true: the items after
    it are not run and leave no trace in the graph.  When it returns a value
    that is not true, that value is [None], never the false item itself. *)
Theorem first_true_short_circuit (before after : list (M value))
    (item : M value) (g g1 g2 : Graph) (x : value) :
  first_true before g = Some (PyNone, g1) →
  item g1 = Some (x, g2) →
  truthy x = true →
  first_true (before ++ item :: after) g = Some (x, g2) ∧
  ∀ sequence g0 y g3,
    first_true sequence g0 = Some (y, g3) → truthy y = true ∨ y = PyNone.
Proof.
  intros Hbefore Hitem Hx. split.
  - revert g Hbefore. induction before as [|m before IH]; intros g Hbefore.
    + injection Hbefore as ->. simpl. by rewrite bind_run, Hitem, Hx.
    + simpl in *. rewrite bind_run in *.
      destruct (m g) as [[y g']|]; [|done].
      destruct (truthy y) eqn:Hy; [|by apply IH].
      injection Hbefore as -> _. done.
  - clear. intros sequence. induction sequence as [|m sequence IH];
      intros g0 y g3 Hrun.
    + injection Hrun as <- _. by right.
    + simpl in Hrun. rewrite bind_run in Hrun.
      destruct (m g0) as [[z g']|]; [|done].
      destruct (truthy z) eqn:Hz; [|by eapply IH].
      injection Hrun as <- _. by left.
Qed.

Lemma first_true_short_circuit_example :
  first_true [ret PyFalse] ∅ = Some (PyNone, ∅) ∧
  first_true ([ret PyFalse] ++ ret (PyList [(0, 0)]) :: [out_of_fuel]) ∅
    = Some (PyList [(0, 0)], ∅).
Proof.
  assert (first_true [ret PyFalse] ∅ = Some (PyNone, (∅ : Graph))) as Hb
    by reflexivity.
  split; [done|].
  by apply (first_true_short_circuit [ret PyFalse] [out_of_fuel]
              (ret (PyList [(0, 0)])) ∅ ∅ ∅ (PyList [(0, 0)])).
Defined.



(** ** The isolation game: lists and grids *)

Section grids.
Implicit Types (vis : list (list Z)) (row : list Z) (p q : Z * Z).

Lemma py_index_nonneg {A} (l : list A) (i : Z) :
  0 ≤ i → py_index l i = l !! Z.to_nat i.
Proof. intros Hi. unfold py_index. by rewrite decide_True. Qed.

Lemma py_index_in_range {A} (l : list A) (i : Z) :
  0 ≤ i → i < Z.of_nat (length l) → is_Some (py_index l i).
Proof.
  intros Hi Hlen. rewrite py_index_nonneg by done.
  apply lookup_lt_is_Some. lia.
Qed.

(** An index is accepted exactly from [-len] up to [len - 1], and a negative
    one reads the element [len + i]. *)
Lemma py_index_spec {A} (l : list A) (i : Z) :
  py_index l i =
  if decide (- Z.of_nat (length l) ≤ i ∧ i < Z.of_nat (length l))
  then l !! Z.to_nat (i `mod` Z.of_nat (length l))
  else None.
Proof.
  unfold py_index. destruct (decide (0 ≤ i)) as [Hi|Hi].
  - case_decide as Hr.
    + by rewrite Z.mod_small by lia.
    + apply lookup_ge_None. lia.
  - case_decide as Hn.
    + rewrite decide_True by lia. f_equal. f_equal.
      apply (Z.mod_unique_pos _ _ (-1)); lia.
    + rewrite decide_False; [done|lia].
Qed.

Lemma py_setitem_nonneg {A} (l : list A) (i : Z) (x : A) :
  0 ≤ i → i < Z.of_nat (length l) →
  py_setitem l i x = Some (<[Z.to_nat i := x]> l).
Proof.
  intros Hi Hlen. unfold py_setitem. by rewrite !decide_True.
Qed.

Lemma grid_get_on_board vis p :
  grid_shape vis → on_board p →
  ∃ row c, vis !! Z.to_nat p.1 = Some row ∧ row !! Z.to_nat p.2 = Some c ∧
           grid_get vis p = Some c.
Proof.
  intros [Hlen Hrows] [[? ?] [? ?]]. unfold board_size in *.
  destruct (lookup_lt_is_Some_2 vis (Z.to_nat p.1)) as [row Hrow]; [lia|].
  pose proof (Forall_lookup_1 _ _ _ _ Hrows Hrow) as Hrl. simpl in Hrl.
  destruct (lookup_lt_is_Some_2 row (Z.to_nat p.2)) as [c Hc]; [lia|].
  exists row, c. split_and!; [done|done|].
  unfold grid_get. rewrite py_index_nonneg, Hrow by done. simpl.
  by rewrite py_index_nonneg.
Qed.

Lemma grid_get_lookup vis p :
  0 ≤ p.1 → 0 ≤ p.2 →
  grid_get vis p = row ← vis !! Z.to_nat p.1; row !! Z.to_nat p.2.
Proof.
  intros H1 H2. unfold grid_get. rewrite py_index_nonneg by done.
  destruct (vis !! Z.to_nat p.1) as [row|]; simpl; [|done].
  by rewrite py_index_nonneg.
Qed.

Lemma grid_set_on_board vis p x :
  grid_shape vis → on_board p →
  ∃ row,
    vis !! Z.to_nat p.1 = Some row ∧
    grid_set vis p x =
      Some (<[Z.to_nat p.1 := <[Z.to_nat p.2 := x]> row]> vis).
Proof.
  intros Hshape Hp.
  destruct (grid_get_on_board vis p Hshape Hp) as (row & c & Hrow & Hc & _).
  destruct Hshape as [Hlen Hrows]. destruct Hp as [[? ?] [? ?]].
  unfold board_size in *.
  pose proof (Forall_lookup_1 _ _ _ _ Hrows Hrow) as Hrl. simpl in Hrl.
  exists row. split; [done|].
  unfold grid_set. rewrite py_index_nonneg, Hrow by done. simpl.
  rewrite py_setitem_nonneg by lia. simpl.
  by rewrite py_setitem_nonneg by lia.
Qed.

Lemma grid_shape_insert vis (i j : nat) row x :
  grid_shape vis → vis !! i = Some row →
  grid_shape (<[i := <[j := x]> row]> vis).
Proof.
  intros [Hlen Hrows] Hrow. split; [by rewrite length_insert|].
  apply Forall_insert; [done|].
  rewrite length_insert.
  by apply (Forall_lookup_1 _ _ _ _ Hrows Hrow).
Qed.

Lemma grid_get_insert_eq vis p row x :
  on_board p → vis !! Z.to_nat p.1 = Some row →
  (Z.to_nat p.2 < length row)%nat →
  grid_get (<[Z.to_nat p.1 := <[Z.to_nat p.2 := x]> row]> vis) p = Some x.
Proof.
  intros [[? ?] [? ?]] Hrow Hlen. rewrite grid_get_lookup by done.
  rewrite list_lookup_insert_eq by (by eapply lookup_lt_Some).
  simpl. by rewrite list_lookup_insert_eq.
Qed.

Lemma grid_get_insert_ne vis p q row x :
  on_board p → on_board q → p ≠ q →
  vis !! Z.to_nat p.1 = Some row →
  grid_get (<[Z.to_nat p.1 := <[Z.to_nat p.2 := x]> row]> vis) q =
  grid_get vis q.
Proof.
  intros [[? ?] [? ?]] [[? ?] [? ?]] Hne Hrow.
  rewrite !grid_get_lookup by done.
  destruct (decide (Z.to_nat p.1 = Z.to_nat q.1)) as [Heq|Hrne].
  - rewrite <- Heq, Hrow.
    rewrite list_lookup_insert_eq by (by eapply lookup_lt_Some). simpl.
    apply list_lookup_insert_ne. intros Hc. apply Hne.
    destruct p, q; simpl in *. f_equal; lia.
  - by rewrite list_lookup_insert_ne.
Qed.

Lemma open_row_insert row (j : nat) x :
  row !! j = Some 0 → x ≠ 0 →
  S (length (filter (λ c, c = 0) (<[j := x]> row))) =
  length (filter (λ c, c = 0) row).
Proof.
  revert j. induction row as [|c row IH]; intros j Hj Hx; [done|].
  destruct j as [|j]; simpl in *.
  - injection Hj as ->. rewrite !filter_cons.
    rewrite decide_False by done. by rewrite decide_True.
  - rewrite !filter_cons. case_decide; simpl; by rewrite <- (IH j).
Qed.

Lemma open_squares_insert vis (i j : nat) row x :
  vis !! i = Some row → row !! j = Some 0 → x ≠ 0 →
  S (open_squares (<[i := <[j := x]> row]> vis)) = open_squares vis.
Proof.
  unfold open_squares. revert i. induction vis as [|r vis IH];
    intros i Hi Hj Hx; [done|].
  destruct i as [|i]; simpl in *.
  - injection Hi as ->. rewrite !filter_app, !length_app.
    rewrite <- (open_row_insert row j x) by done. lia.
  - rewrite !filter_app, !length_app. rewrite <- (IH i) by done. lia.
Qed.

End grids.

(** ** The isolation game: moves *)

Section moves.
Implicit Types (vis : list (list Z)) (g : game) (p q : Z * Z).

Lemma elem_of_targets p q :
  q ∈ targets p ↔ (q.1 - p.1, q.2 - p.2) ∈ knight_moves.
Proof.
  unfold targets. rewrite list_elem_of_fmap. split.
  - intros ([dx dy] & -> & Hm). simpl.
    by replace (p.1 + dx - p.1) with dx by lia;
       replace (p.2 + dy - p.2) with dy by lia.
  - intros Hm. exists (q.1 - p.1, q.2 - p.2). split; [|done].
    destruct q as [x y]. simpl. f_equal; lia.
Qed.

Lemma legal_among_spec vis (moves : list (Z * Z)) :
  grid_shape vis →
  legal_among vis moves = Some (filter (open_square vis) moves).
Proof.
  intros Hshape. induction moves as [|m moves IH]; [done|].
  simpl. rewrite IH, filter_cons.
  destruct (decide (on_board m)) as [Hb|Hb].
  - destruct (grid_get_on_board vis m Hshape Hb) as (_ & c & _ & _ & Hc).
    rewrite Hc. simpl.
    destruct (decide (c = 0)) as [->|Hne].
    + rewrite bool_decide_eq_true_2 by done. by rewrite decide_True.
    + rewrite bool_decide_eq_false_2 by done.
      rewrite decide_False; [done|]. unfold open_square. rewrite Hc.
      intros [_ [=]]. done.
  - simpl. rewrite decide_False; [done|]. unfold open_square. tauto.
Qed.

Lemma get_legal_moves_spec g p :
  grid_shape (visited g) →
  get_legal_moves g p = Some (filter (open_square (visited g)) (targets p)).
Proof. apply legal_among_spec. Qed.

Lemma has_valid_moves_among_spec vis p (moves : list (Z * Z)) :
  grid_shape vis →
  has_valid_moves_among vis p moves =
  Some (bool_decide
          (filter (open_square vis)
             ((λ move : Z * Z, (p.1 + move.1, p.2 + move.2)) <$> moves) ≠ [])).
Proof.
  intros Hshape. induction moves as [|m moves IH].
  { reflexivity. }
  rewrite fmap_cons, filter_cons. cbn [has_valid_moves_among]. cbv zeta.
  destruct (decide (on_board (p.1 + m.1, p.2 + m.2))) as [Hb|Hb].
  - destruct (grid_get_on_board vis _ Hshape Hb) as (_ & c & _ & _ & Hc).
    rewrite Hc. simpl. destruct (decide (c = 0)) as [->|Hne].
    + rewrite decide_True by done. by rewrite bool_decide_eq_true_2.
    + rewrite IH. rewrite decide_False; [done|]. unfold open_square.
      rewrite Hc. intros [_ [=]]. done.
  - rewrite IH. rewrite decide_False; [done|]. unfold open_square. tauto.
Qed.

Lemma has_valid_moves_spec g p :
  grid_shape (visited g) →
  has_valid_moves g p =
  Some (bool_decide (filter (open_square (visited g)) (targets p) ≠ [])).
Proof. apply has_valid_moves_among_spec. Qed.

Lemma is_valid_move_spec g p q :
  grid_shape (visited g) → on_board q →
  is_valid_move g p q =
  Some (bool_decide (q ∈ targets p ∧ open_square (visited g) q)).
Proof.
  intros Hshape Hq. unfold is_valid_move.
  destruct (grid_get_on_board _ q Hshape Hq) as (_ & c & _ & _ & Hc).
  case_decide as Ht.
  - rewrite Hc. simpl. f_equal. apply bool_decide_ext. unfold open_square.
    rewrite Hc. split; [intros ->; tauto|]. by intros (_ & _ & [=]).
  - rewrite bool_decide_eq_false_2; [done|tauto].
Qed.

End moves.

(** ** The isolation game: one click *)

Section clicks.
Implicit Types (vis : list (list Z)) (g : game) (p q : Z * Z).

Lemma on_board_label_index_ok p : on_board p → label_index_ok p.
Proof. unfold on_board, label_index_ok, board_size. lia. Qed.

Lemma game_step_refl g : game_inv g → game_step g g.
Proof. intros Hinv. split_and!; [done|done|by intros|by left|done]. Qed.

Lemma game_step_trans g1 g2 g3 :
  game_step g1 g2 → game_step g2 g3 → game_step g1 g3.
Proof.
  intros (Hi2 & Ha2 & Hm2 & Ho2 & Hp2) (Hi3 & Ha3 & Hm3 & Ho3 & Hp3).
  split_and!.
  - done.
  - congruence.
  - intros q c Hq Hc Hne. eauto.
  - destruct Ho2 as [->|Ho2]; [done|].
    destruct Ho3 as [->|Ho3]; right; lia.
  - by etrans.
Qed.

(** A click that is not a valid move of the knight to move changes
    nothing. *)
Lemma click_invalid agent g x y :
  grid_shape (visited g) → on_board (x, y) →
  ¬ ((current_knight g = 1 ∧ (x, y) ∈ targets (knight1_position g) ∧
      open_square (visited g) (x, y)) ∨
     (current_knight g = 2 ∧ (x, y) ∈ targets (knight2_position g) ∧
      open_square (visited g) (x, y))) →
  on_square_click_with agent g x y = Some g.
Proof.
  intros Hshape Hxy Hno. unfold on_square_click_with.
  case_decide as H1.
  - rewrite is_valid_move_spec by done.
    rewrite bool_decide_eq_false_2; [done|]. intros Hv. apply Hno. left. tauto.
  - case_decide as H2; [|done].
    rewrite is_valid_move_spec by done.
    rewrite bool_decide_eq_false_2; [done|]. intros Hv. apply Hno. right. tauto.
Qed.

(** A valid move of the first knight. *)
Lemma click_valid_1 agent g x y :
  game_inv g → current_knight g = 1 → on_board (x, y) →
  (x, y) ∈ targets (knight1_position g) → open_square (visited g) (x, y) →
  ∃ row,
    visited g !! Z.to_nat x = Some row ∧ row !! Z.to_nat y = Some 0 ∧
    on_square_click_with agent g x y =
    let vis' := <[Z.to_nat x := <[Z.to_nat y := 1]> row]> (visited g) in
    if bool_decide (filter (open_square vis') (targets (knight2_position g))
                    ≠ [])
    then
      let g' := Game vis' (x, y) (knight2_position g) 2 (has_agent g)
                  (messages g) in
      if has_agent g then agent g' else Some g'
    else
      Some (Game vis' (x, y) (knight2_position g) 1 (has_agent g)
              (messages g ++ [Knight1Wins])).
Proof.
  intros (Hshape & Hk1 & Hk2 & Hv1 & Hv2 & Hcur) Hc Hxy Ht Hopen.
  destruct (grid_get_on_board _ _ Hshape Hxy) as (row & c & Hrow & Hcell & Hget).
  destruct Hopen as [_ Hzero]. rewrite Hget in Hzero. injection Hzero as ->.
  destruct (grid_set_on_board _ _ 1 Hshape Hxy) as (row' & Hrow' & Hset).
  simpl in *. rewrite Hrow in Hrow'. injection Hrow' as <-.
  exists row. split_and!; [done|done|].
  unfold on_square_click_with. rewrite decide_True by done.
  rewrite is_valid_move_spec by done.
  rewrite bool_decide_eq_true_2
    by (split; [done|]; split; [done|]; by rewrite Hget).
  unfold move_knight. rewrite decide_True
    by (split; by apply on_board_label_index_ok).
  cbn [mbind option_bind visited knight1_position knight2_position
       current_knight has_agent messages].
  rewrite Hset.
  cbn [mbind option_bind visited knight1_position knight2_position
       current_knight has_agent messages].
  rewrite has_valid_moves_spec by (by apply grid_shape_insert).
  cbn [mbind option_bind visited knight1_position knight2_position
       current_knight has_agent messages].
  rewrite Hc. by destruct (bool_decide _).
Qed.

(** A valid move of the second knight. *)
Lemma click_valid_2 agent g x y :
  game_inv g → current_knight g = 2 → on_board (x, y) →
  (x, y) ∈ targets (knight2_position g) → open_square (visited g) (x, y) →
  ∃ row,
    visited g !! Z.to_nat x = Some row ∧ row !! Z.to_nat y = Some 0 ∧
    on_square_click_with agent g x y =
    let vis' := <[Z.to_nat x := <[Z.to_nat y := 2]> row]> (visited g) in
    if bool_decide (filter (open_square vis') (targets (knight1_position g))
                    ≠ [])
    then
      Some (Game vis' (knight1_position g) (x, y) 1 (has_agent g)
              (messages g))
    else
      Some (Game vis' (knight1_position g) (x, y) 2 (has_agent g)
              (messages g ++ [Knight2Wins])).
Proof.
  intros (Hshape & Hk1 & Hk2 & Hv1 & Hv2 & Hcur) Hc Hxy Ht Hopen.
  destruct (grid_get_on_board _ _ Hshape Hxy) as (row & c & Hrow & Hcell & Hget).
  destruct Hopen as [_ Hzero]. rewrite Hget in Hzero. injection Hzero as ->.
  destruct (grid_set_on_board _ _ 2 Hshape Hxy) as (row' & Hrow' & Hset).
  simpl in *. rewrite Hrow in Hrow'. injection Hrow' as <-.
  exists row. split_and!; [done|done|].
  unfold on_square_click_with. rewrite decide_False by lia.
  rewrite decide_True by done.
  rewrite is_valid_move_spec by done.
  rewrite bool_decide_eq_true_2
    by (split; [done|]; split; [done|]; by rewrite Hget).
  unfold move_knight. rewrite decide_True
    by (split; by apply on_board_label_index_ok).
  cbn [mbind option_bind visited knight1_position knight2_position
       current_knight has_agent messages].
  rewrite Hset.
  cbn [mbind option_bind visited knight1_position knight2_position
       current_knight has_agent messages].
  rewrite has_valid_moves_spec by (by apply grid_shape_insert).
  cbn [mbind option_bind visited knight1_position knight2_position
       current_knight has_agent messages].
  rewrite Hc. by destruct (bool_decide _).
Qed.

End clicks.

Section steps.
Context `{Scores}.
Implicit Types (vis : list (list Z)) (g : game) (p q : Z * Z).

Lemma mark_step g x y row k pos1 pos2 cur msgs :
  game_inv g → on_board (x, y) →
  visited g !! Z.to_nat x = Some row → row !! Z.to_nat y = Some 0 →
  (k = 1 ∧ pos1 = (x, y) ∧ pos2 = knight2_position g) ∨
  (k = 2 ∧ pos2 = (x, y) ∧ pos1 = knight1_position g) →
  cur = 1 ∨ cur = 2 →
  messages g `prefix_of` msgs →
  game_step g
    (Game (<[Z.to_nat x := <[Z.to_nat y := k]> row]> (visited g))
       pos1 pos2 cur (has_agent g) msgs).
Proof.
  intros (Hshape & Hk1 & Hk2 & Hv1 & Hv2 & Hcur) Hxy Hrow Hcell Hk Hc Hmsgs.
  assert (grid_get (visited g) (x, y) = Some 0) as Hget.
  { rewrite grid_get_lookup by (unfold on_board in Hxy; simpl in *; lia).
    simpl. by rewrite Hrow. }
  assert (Z.to_nat y < length row)%nat as Hlen by by eapply lookup_lt_Some.
  assert (knight1_position g ≠ (x, y)) as Hne1 by (intros Heq; congruence).
  assert (knight2_position g ≠ (x, y)) as Hne2 by (intros Heq; congruence).
  assert (k ≠ 0) as Hk0 by (destruct Hk as [[-> _]|[-> _]]; lia).
  split_and!; cbn [visited knight1_position knight2_position current_knight
                   has_agent messages].
  - split_and!; cbn [visited knight1_position knight2_position current_knight
                     has_agent messages].
    + by apply grid_shape_insert.
    + destruct Hk as [(_ & -> & _)|(_ & _ & ->)]; done.
    + destruct Hk as [(_ & _ & ->)|(_ & -> & _)]; done.
    + destruct Hk as [(-> & -> & _)|(_ & _ & ->)].
      * by apply (grid_get_insert_eq _ (x, y)).
      * by rewrite (grid_get_insert_ne _ (x, y)).
    + destruct Hk as [(_ & _ & ->)|(-> & -> & _)].
      * by rewrite (grid_get_insert_ne _ (x, y)).
      * by apply (grid_get_insert_eq _ (x, y)).
    + done.
  - done.
  - intros q c Hq Hqc Hne.
    rewrite (grid_get_insert_ne _ (x, y)); [done..| |done].
    intros <-. congruence.
  - right. rewrite <- (open_squares_insert (visited g) (Z.to_nat x)
                         (Z.to_nat y) row k) by done. lia.
  - done.
Qed.

(** One click keeps the game in order, provided the agent's move does. *)
Lemma click_step (agent : game → option game) g x y :
  game_inv g → on_board (x, y) →
  (∀ g2, game_inv g2 → current_knight g2 = 2 →
         ∃ g3, agent g2 = Some g3 ∧ game_step g2 g3) →
  ∃ g', on_square_click_with agent g x y = Some g' ∧ game_step g g'.
Proof.
  intros Hinv Hxy Hagent.
  destruct (decide
    ((current_knight g = 1 ∧ (x, y) ∈ targets (knight1_position g) ∧
      open_square (visited g) (x, y)) ∨
     (current_knight g = 2 ∧ (x, y) ∈ targets (knight2_position g) ∧
      open_square (visited g) (x, y)))) as [[(Hc & Ht & Ho)|(Hc & Ht & Ho)]|Hno].
  - destruct (click_valid_1 agent g x y Hinv Hc Hxy Ht Ho)
      as (row & Hrow & Hcell & ->). cbv zeta.
    case_bool_decide.
    + set (g2 := Game _ _ _ 2 _ _).
      assert (game_step g g2) as Hstep.
      { apply mark_step; [done..|left; done|by right|done]. }
      destruct (has_agent g); [|by exists g2].
      destruct (Hagent g2) as (g3 & -> & Hstep3); [apply Hstep|done|].
      exists g3. split; [done|]. by eapply game_step_trans.
    + eexists. split; [done|].
      apply mark_step; [done..|left; done|by left|by apply prefix_app_r].
  - destruct (click_valid_2 agent g x y Hinv Hc Hxy Ht Ho)
      as (row & Hrow & Hcell & ->). cbv zeta.
    case_bool_decide; (eexists; split; [done|]).
    + apply mark_step; [done..|right; done|by left|done].
    + apply mark_step; [done..|right; done|by right|by apply prefix_app_r].
  - exists g. split; [|by apply game_step_refl].
    apply click_invalid; [apply Hinv|done|done].
Qed.

Lemma onward_counts_spec g (moves : list (Z * Z)) :
  grid_shape (visited g) →
  onward_counts g moves =
  Some ((λ m, (onward (visited g) m, m)) <$> moves).
Proof.
  intros Hshape. induction moves as [|m moves IH]; [done|].
  simpl. rewrite get_legal_moves_spec, IH by done. done.
Qed.

Lemma warnsdorffs_rule_spec g p :
  grid_shape (visited g) →
  warnsdorffs_rule g p =
  Some (sorted_pure (onward (visited g))
          (filter (open_square (visited g)) (targets p))).
Proof.
  intros Hshape. unfold warnsdorffs_rule.
  rewrite get_legal_moves_spec by done. simpl.
  rewrite onward_counts_spec by done. done.
Qed.

Lemma collect_total {A B} (f : A → option B) (l : list A) :
  (∀ x, is_Some (f x)) → is_Some (collect f l).
Proof.
  intros Hf. induction l as [|x l [tl Htl]]; [by eexists|].
  simpl. destruct (Hf x) as [y ->]. simpl. rewrite Htl. by eexists.
Qed.

Lemma evaluate_position_total g p (depth : nat) :
  grid_shape (visited g) → is_Some (evaluate_position g p depth).
Proof.
  intros Hshape. revert p. induction depth as [|depth IH]; intros p; simpl.
  - rewrite get_legal_moves_spec by done. by eexists.
  - rewrite warnsdorffs_rule_spec by done. simpl.
    destruct (sorted_pure _ _) as [|m moves]; [by eexists|].
    destruct (collect_total (λ move, evaluate_position g move depth)
                (m :: moves) IH) as [scores ->].
    by eexists.
Qed.

Lemma best_of_spec g (depth : nat) (moves : list (Z * Z)) best value :
  grid_shape (visited g) →
  ∃ best' value',
    best_of g depth moves best value = Some (best', value') ∧
    (best' = best ∨ ∃ m, m ∈ moves ∧ best' = Some m).
Proof.
  intros Hshape. revert best value.
  induction moves as [|m moves IH]; intros best value; simpl.
  { eexists _, _. split; [done|by left]. }
  destruct (evaluate_position_total g m depth Hshape) as [s ->]. simpl.
  destruct (gt s value).
  - destruct (IH (Some m) s) as (b & v & -> & Hb).
    eexists _, _. split; [done|]. right.
    destruct Hb as [->|(m' & Hm' & ->)]; [exists m|exists m']; set_solver.
  - destruct (IH best value) as (b & v & -> & Hb).
    eexists _, _. split; [done|].
    destruct Hb as [->|(m' & Hm' & ->)]; [by left|right; exists m'; set_solver].
Qed.

(** The agent plays a legal move of the second knight or no move at all. *)
Lemma make_move_step g :
  game_inv g → current_knight g = 2 →
  ∃ g', make_move g = Some g' ∧ game_step g g'.
Proof.
  intros Hinv Hc. pose proof Hinv as (Hshape & _).
  unfold make_move, make_move_with. rewrite decide_False by lia.
  rewrite warnsdorffs_rule_spec by done. simpl.
  destruct (best_of_spec g 2 (sorted_pure (onward (visited g))
              (filter (open_square (visited g))
                 (targets (knight2_position g)))) None (of_int (-9999)) Hshape)
    as (best & value & -> & Hbest). simpl.
  destruct Hbest as [->|(m & Hm & ->)].
  { exists g. split; [done|by apply game_step_refl]. }
  rewrite sorted_pure_perm in Hm.
  apply list_elem_of_filter in Hm as [[Hb _] _].
  destruct m as [x y]. simpl.
  apply click_step; [done|done|].
  intros g2 Hinv2 _. exists g2. split; [done|by apply game_step_refl].
Qed.

(** The click the agent makes is the second knight's, so the agent is not
    called again: the two levels written out in [on_square_click] are all
    there is. *)
Lemma click_knight2_agent_free (agent1 agent2 : game → option game) g x y :
  current_knight g ≠ 1 →
  on_square_click_with agent1 g x y = on_square_click_with agent2 g x y.
Proof.
  intros Hc. unfold on_square_click_with.
  by destruct (decide (current_knight g = 1)).
Qed.

End steps.

(** ** Properties of the isolation game *)

(** X16. For an end square on the board, [is_valid_move] raises nothing and
    answers [True] exactly when the end square is a knight's move from the
    start square and has not been visited. *)
Theorem is_valid_move_on_board (g : game) (start end_ : Z * Z) :
  grid_shape (visited g) → on_board end_ →
  ∃ b, is_valid_move g start end_ = Some b ∧
       (b = true ↔
        (end_.1 - start.1, end_.2 - start.2) ∈ knight_moves ∧
        grid_get (visited g) end_ = Some 0).
Proof.
  intros Hshape Hend. rewrite is_valid_move_spec by done.
  eexists. split; [done|].
  rewrite bool_decide_eq_true, elem_of_targets. unfold open_square. tauto.
Qed.

Lemma is_valid_move_on_board_start :
  grid_shape (visited (start_game false)) ∧ on_board (1, 2) ∧
  ∃ b, is_valid_move (start_game false) (0, 0) (1, 2) = Some b ∧
       (b = true ↔
        (1 - 0, 2 - 0) ∈ knight_moves ∧
        grid_get (visited (start_game false)) (1, 2) = Some 0).
Proof.
  assert (grid_shape (visited (start_game false))) as Hshape
    by (apply (bool_decide_unpack _); vm_compute; exact I).
  assert (on_board (1, 2)) as Hb by (unfold on_board, board_size; simpl; lia).
  split_and!; [done|done|].
  by apply (is_valid_move_on_board (start_game false) (0, 0) (1, 2)).
Defined.

(** X17. The move generator of the agent, the test for a knight that is
    stuck and the validation of a click agree: [get_legal_moves] returns,
    without duplicates, exactly the squares of the board that
    [is_valid_move] accepts, and [has_valid_moves] is [True] exactly when
    there is one. *)
Theorem legal_moves_agree (g : game) (position : Z * Z) :
  grid_shape (visited g) →
  ∃ l, get_legal_moves g position = Some l ∧
       has_valid_moves g position = Some (bool_decide (l ≠ [])) ∧
       NoDup l ∧
       ∀ q, q ∈ l ↔ on_board q ∧ is_valid_move g position q = Some true.
Proof.
  intros Hshape. eexists. split; [by apply get_legal_moves_spec|].
  split_and!.
  - by apply has_valid_moves_spec.
  - apply NoDup_filter. unfold targets.
    apply (NoDup_fmap_2_strong _).
    + intros [a b] [c d] _ _ [= ? ?]. f_equal; lia.
    + apply NoDup_ListNoDup. unfold knight_moves.
      repeat constructor; simpl; intuition congruence.
  - intros q. rewrite list_elem_of_filter. split.
    + intros [Hopen Ht]. pose proof Hopen as [Hb _]. split; [done|].
      rewrite is_valid_move_spec by done.
      by rewrite bool_decide_eq_true_2.
    + intros [Hb Hv]. rewrite is_valid_move_spec in Hv by done.
      injection Hv as Hv. apply bool_decide_eq_true in Hv. tauto.
Qed.

Lemma legal_moves_agree_start :
  grid_shape (visited (start_game false)) ∧
  ∃ l, get_legal_moves (start_game false) (0, 0) = Some l ∧
       has_valid_moves (start_game false) (0, 0)
         = Some (bool_decide (l ≠ [])) ∧
       NoDup l ∧
       ∀ q, q ∈ l ↔
            on_board q ∧ is_valid_move (start_game false) (0, 0) q = Some true.
Proof.
  assert (grid_shape (visited (start_game false))) as Hshape
    by (apply (bool_decide_unpack _); vm_compute; exact I).
  split; [done|].
  by apply (legal_moves_agree (start_game false) (0, 0)).
Defined.

(** X18. [warnsdorffs_rule] returns the legal moves from the position,
    each once, in ascending order of the number of legal moves that lead on
    from them; moves with equal numbers keep the order of [knight_moves]. *)
Theorem warnsdorffs_rule_sorted (g : game) (position : Z * Z) :
  grid_shape (visited g) →
  ∃ moves l,
    get_legal_moves g position = Some moves ∧
    warnsdorffs_rule g position = Some l ∧
    l ≡ₚ moves ∧
    (∀ m, get_legal_moves g m
          = Some (filter (open_square (visited g)) (targets m))) ∧
    StronglySorted
      (λ a b, (onward (visited g) a ≤ onward (visited g) b)%nat) l ∧
    ∀ k : nat, filter (λ m, onward (visited g) m = k) l
             = filter (λ m, onward (visited g) m = k) moves.
Proof.
  intros Hshape. eexists _, _.
  split; [by apply get_legal_moves_spec|].
  split; [by apply warnsdorffs_rule_spec|].
  split_and!.
  - apply sorted_pure_perm.
  - intros m. by apply get_legal_moves_spec.
  - apply sorted_pure_sorted.
  - intros k. apply sorted_pure_stable.
Qed.

Lemma warnsdorffs_rule_sorted_start :
  grid_shape (visited (start_game false)) ∧
  ∃ moves l,
    get_legal_moves (start_game false) (2, 2) = Some moves ∧
    warnsdorffs_rule (start_game false) (2, 2) = Some l ∧
    l ≡ₚ moves ∧
    (∀ m, get_legal_moves (start_game false) m
          = Some (filter (open_square (visited (start_game false)))
                    (targets m))) ∧
    StronglySorted
      (λ a b, (onward (visited (start_game false)) a
               ≤ onward (visited (start_game false)) b)%nat) l ∧
    ∀ k : nat,
      filter (λ m, onward (visited (start_game false)) m = k) l
      = filter (λ m, onward (visited (start_game false)) m = k) moves.
Proof.
  assert (grid_shape (visited (start_game false))) as Hshape
    by (apply (bool_decide_unpack _); vm_compute; exact I).
  split; [done|].
  by apply (warnsdorffs_rule_sorted (start_game false) (2, 2)).
Defined.

(** X19. A click on a square of the board that is not a knight's move from
    the knight to move, or that has been visited, changes nothing: no
    knight moves, no square is marked, the turn stays. *)
Theorem on_square_click_invalid `{Scores} (g : game) (x y : Z) :
  grid_shape (visited g) → on_board (x, y) →
  (current_knight g = 1 →
   (x, y) ∉ targets (knight1_position g) ∨
   grid_get (visited g) (x, y) ≠ Some 0) →
  (current_knight g = 2 →
   (x, y) ∉ targets (knight2_position g) ∨
   grid_get (visited g) (x, y) ≠ Some 0) →
  on_square_click g x y = Some g.
Proof.
  intros Hshape Hxy H1 H2. apply click_invalid; [done|done|].
  unfold open_square. intros [(Hc & Ht & _ & Hz)|(Hc & Ht & _ & Hz)].
  - destruct (H1 Hc); done.
  - destruct (H2 Hc); done.
Qed.

Lemma on_square_click_invalid_start :
  on_square_click (H := exact_scores) (start_game true) 3 3
  = Some (start_game true).
Proof.
  apply (on_square_click_invalid (H := exact_scores) (start_game true) 3 3).
  - apply (bool_decide_unpack _); vm_compute; exact I.
  - unfold on_board, board_size; simpl; lia.
  - intros _. left. rewrite elem_of_targets. vm_compute.
    intros Hin. repeat (apply elem_of_cons in Hin as [[=]|Hin]).
    by apply elem_of_nil in Hin.
  - intros [=].
Defined.

(** X20. A click on a square of the board never raises [IndexError] and
    keeps the game in order, with or without the agent: the grid stays
    8 x 8, both knights stay on the board on squares that carry their
    marks, the mark of a visited square never changes, messages are only
    added, and either nothing changes or fewer squares are open. *)
Theorem on_square_click_keeps_game `{Scores} (g : game) (x y : Z) :
  game_inv g → on_board (x, y) →
  ∃ g', on_square_click g x y = Some g' ∧ game_step g g'.
Proof.
  intros Hinv Hxy. apply click_step; [done|done|].
  intros g2 Hinv2 Hc2. by apply make_move_step.
Qed.

Lemma on_square_click_keeps_game_start :
  game_inv (start_game true) ∧ on_board (1, 2) ∧
  ∃ g', on_square_click (H := exact_scores) (start_game true) 1 2 = Some g' ∧
        game_step (start_game true) g'.
Proof.
  assert (game_inv (start_game true)) as Hinv
    by (apply (bool_decide_unpack _); vm_compute; exact I).
  assert (on_board (1, 2)) as Hb by (unfold on_board, board_size; simpl; lia).
  split_and!; [done|done|].
  by apply (on_square_click_keeps_game (H := exact_scores) (start_game true) 1 2).
Defined.

Section move_effects.
Context `{Scores}.

Lemma moved_grid (vis : list (list Z)) x y row k :
  grid_shape vis → on_board (x, y) →
  vis !! Z.to_nat x = Some row → row !! Z.to_nat y = Some 0 → k ≠ 0 →
  grid_shape (<[Z.to_nat x := <[Z.to_nat y := k]> row]> vis) ∧
  grid_get (<[Z.to_nat x := <[Z.to_nat y := k]> row]> vis) (x, y) = Some k ∧
  S (open_squares (<[Z.to_nat x := <[Z.to_nat y := k]> row]> vis))
  = open_squares vis.
Proof.
  intros Hshape Hxy Hrow Hcell Hk. split_and!.
  - by apply grid_shape_insert.
  - apply (grid_get_insert_eq _ (x, y)); [done|done|].
    by eapply lookup_lt_Some.
  - by apply open_squares_insert.
Qed.

End move_effects.

(** X21. A valid move of the first knight in a game without agent: the
    knight stands on the clicked square, which now carries its mark, the
    other knight stays, and one square less is open.  When the second knight
    can still move the turn passes to it; when it cannot, the message that
    knight 1 wins is added and the turn stays with the first knight. *)
Theorem knight1_move `{Scores} (g : game) (x y : Z) :
  game_inv g → has_agent g = false → current_knight g = 1 →
  on_board (x, y) →
  (x, y) ∈ targets (knight1_position g) →
  grid_get (visited g) (x, y) = Some 0 →
  ∃ g', on_square_click g x y = Some g' ∧
    knight1_position g' = (x, y) ∧
    knight2_position g' = knight2_position g ∧
    grid_get (visited g') (x, y) = Some 1 ∧
    S (open_squares (visited g')) = open_squares (visited g) ∧
    ((has_valid_moves g' (knight2_position g') = Some true ∧
      current_knight g' = 2 ∧ messages g' = messages g) ∨
     (has_valid_moves g' (knight2_position g') = Some false ∧
      current_knight g' = 1 ∧ messages g' = messages g ++ [Knight1Wins])).
Proof.
  intros Hinv Hagent Hc Hxy Ht Hzero.
  assert (open_square (visited g) (x, y)) as Hopen by done.
  destruct (click_valid_1 make_move g x y Hinv Hc Hxy Ht Hopen)
    as (row & Hrow & Hcell & Hclick).
  destruct Hinv as (Hshape & _).
  destruct (moved_grid (visited g) x y row 1 Hshape Hxy Hrow Hcell)
    as (Hshape' & Hget' & Hopen'); [lia|].
  unfold on_square_click. rewrite Hclick. cbv zeta. rewrite Hagent.
  case_bool_decide as Hmore; eexists; (split; [done|]);
    cbn [visited knight1_position knight2_position current_knight messages];
    (split; [done|]); (split; [done|]); (split; [exact Hget'|]);
    (split; [exact Hopen'|]); [left|right]; (split; [|done]);
    rewrite has_valid_moves_spec by exact Hshape';
    cbn [visited knight1_position knight2_position current_knight messages].
  - f_equal. apply bool_decide_eq_true_2. exact Hmore.
  - f_equal. apply bool_decide_eq_false_2. intros Hn. by apply Hn.
Qed.

Lemma knight1_move_start :
  ∃ g', on_square_click (H := exact_scores) (start_game false) 1 2 = Some g' ∧
    knight1_position g' = (1, 2) ∧
    knight2_position g' = knight2_position (start_game false) ∧
    grid_get (visited g') (1, 2) = Some 1 ∧
    S (open_squares (visited g')) = open_squares (visited (start_game false)) ∧
    ((has_valid_moves g' (knight2_position g') = Some true ∧
      current_knight g' = 2 ∧ messages g' = messages (start_game false)) ∨
     (has_valid_moves g' (knight2_position g') = Some false ∧
      current_knight g' = 1 ∧
      messages g' = messages (start_game false) ++ [Knight1Wins])).
Proof.
  apply (knight1_move (H := exact_scores) (start_game false) 1 2).
  - apply (bool_decide_unpack _); vm_compute; exact I.
  - reflexivity.
  - reflexivity.
  - unfold on_board, board_size; simpl; lia.
  - rewrite elem_of_targets. vm_compute. do 1 apply list_elem_of_further.
    apply list_elem_of_here.
  - reflexivity.
Defined.

Lemma click_knight2_effect (agent : game → option game) (g : game) (x y : Z) :
  game_inv g → current_knight g = 2 →
  on_board (x, y) →
  (x, y) ∈ targets (knight2_position g) →
  grid_get (visited g) (x, y) = Some 0 →
  ∃ g', on_square_click_with agent g x y = Some g' ∧
    knight2_position g' = (x, y) ∧
    knight1_position g' = knight1_position g ∧
    grid_get (visited g') (x, y) = Some 2 ∧
    S (open_squares (visited g')) = open_squares (visited g) ∧
    ((has_valid_moves g' (knight1_position g') = Some true ∧
      current_knight g' = 1 ∧ messages g' = messages g) ∨
     (has_valid_moves g' (knight1_position g') = Some false ∧
      current_knight g' = 2 ∧ messages g' = messages g ++ [Knight2Wins])).
Proof.
  intros Hinv Hc Hxy Ht Hzero.
  assert (open_square (visited g) (x, y)) as Hopen by done.
  destruct (click_valid_2 agent g x y Hinv Hc Hxy Ht Hopen)
    as (row & Hrow & Hcell & Hclick).
  destruct Hinv as (Hshape & _).
  destruct (moved_grid (visited g) x y row 2 Hshape Hxy Hrow Hcell)
    as (Hshape' & Hget' & Hopen'); [lia|].
  rewrite Hclick. cbv zeta.
  case_bool_decide as Hmore; eexists; (split; [done|]);
    cbn [visited knight1_position knight2_position current_knight messages];
    (split; [done|]); (split; [done|]); (split; [exact Hget'|]);
    (split; [exact Hopen'|]); [left|right]; (split; [|done]);
    rewrite has_valid_moves_spec by exact Hshape';
    cbn [visited knight1_position knight2_position current_knight messages].
  - f_equal. apply bool_decide_eq_true_2. exact Hmore.
  - f_equal. apply bool_decide_eq_false_2. intros Hn. by apply Hn.
Qed.

(** X22. A valid move of the second knight, with or without agent: the
    knight stands on the clicked square, which now carries its mark, the
    first knight stays, and one square less is open.  When the first knight
    can still move the turn passes to it; when it cannot, the message that
    knight 2 wins is added and the turn stays with the second knight. *)
Theorem knight2_move `{Scores} (g : game) (x y : Z) :
  game_inv g → current_knight g = 2 →
  on_board (x, y) →
  (x, y) ∈ targets (knight2_position g) →
  grid_get (visited g) (x, y) = Some 0 →
  ∃ g', on_square_click g x y = Some g' ∧
    knight2_position g' = (x, y) ∧
    knight1_position g' = knight1_position g ∧
    grid_get (visited g') (x, y) = Some 2 ∧
    S (open_squares (visited g')) = open_squares (visited g) ∧
    ((has_valid_moves g' (knight1_position g') = Some true ∧
      current_knight g' = 1 ∧ messages g' = messages g) ∨
     (has_valid_moves g' (knight1_position g') = Some false ∧
      current_knight g' = 2 ∧ messages g' = messages g ++ [Knight2Wins])).
Proof. apply click_knight2_effect. Qed.

Lemma knight2_move_late :
  ∃ g', on_square_click (H := exact_scores) late_game 1 2 = Some g' ∧
    knight2_position g' = (1, 2) ∧
    knight1_position g' = knight1_position late_game ∧
    grid_get (visited g') (1, 2) = Some 2 ∧
    S (open_squares (visited g')) = open_squares (visited late_game) ∧
    ((has_valid_moves g' (knight1_position g') = Some true ∧
      current_knight g' = 1 ∧ messages g' = messages late_game) ∨
     (has_valid_moves g' (knight1_position g') = Some false ∧
      current_knight g' = 2 ∧
      messages g' = messages late_game ++ [Knight2Wins])).
Proof.
  apply (knight2_move (H := exact_scores) late_game 1 2).
  - apply (bool_decide_unpack _); vm_compute; exact I.
  - reflexivity.
  - unfold on_board, board_size; simpl; lia.
  - rewrite elem_of_targets. vm_compute. do 1 apply list_elem_of_further.
    apply list_elem_of_here.
  - reflexivity.
Defined.

(** X23. The agent only plays legal moves: a call of [make_move] on the
    second knight's turn raises nothing and either leaves the game as it is
    or moves the second knight, by a knight's move, to a square of the board
    that was open, marks that square and no other, and leaves the first
    knight where it is. *)
Theorem agent_move_is_legal `{Scores} (g : game) :
  game_inv g → current_knight g = 2 →
  ∃ g', make_move g = Some g' ∧
    (g' = g ∨
     (knight2_position g' ∈ targets (knight2_position g) ∧
      on_board (knight2_position g') ∧
      grid_get (visited g) (knight2_position g') = Some 0 ∧
      grid_get (visited g') (knight2_position g') = Some 2 ∧
      knight1_position g' = knight1_position g ∧
      S (open_squares (visited g')) = open_squares (visited g))).
Proof.
  intros Hinv Hc. pose proof Hinv as (Hshape & _).
  unfold make_move, make_move_with. rewrite decide_False by lia.
  rewrite warnsdorffs_rule_spec by done. simpl.
  destruct (best_of_spec g 2 (sorted_pure (onward (visited g))
              (filter (open_square (visited g))
                 (targets (knight2_position g)))) None (of_int (-9999)) Hshape)
    as (best & value & -> & Hbest). simpl.
  destruct Hbest as [->|(m & Hm & ->)]; [by exists g; split; [|left]|].
  rewrite sorted_pure_perm in Hm.
  apply list_elem_of_filter in Hm as [[Hb Hz] Ht].
  destruct m as [x y]. simpl.
  destruct (click_knight2_effect Some g x y Hinv Hc Hb Ht Hz)
    as (g' & -> & Hk2 & Hk1 & Hmark & Hopen & _).
  exists g'. split; [done|]. right. rewrite Hk2. by split_and!.
Qed.

Lemma agent_move_is_legal_start :
  game_inv (Game (visited (start_game true)) (0, 0) (7, 7) 2 true []) ∧
  ∃ g', make_move (H := exact_scores)
          (Game (visited (start_game true)) (0, 0) (7, 7) 2 true []) = Some g' ∧
    (g' = Game (visited (start_game true)) (0, 0) (7, 7) 2 true [] ∨
     (knight2_position g' ∈ targets (7, 7) ∧
      on_board (knight2_position g') ∧
      grid_get (visited (start_game true)) (knight2_position g') = Some 0 ∧
      grid_get (visited g') (knight2_position g') = Some 2 ∧
      knight1_position g' = (0, 0) ∧
      S (open_squares (visited g'))
      = open_squares (visited (start_game true)))).
Proof.
  assert (game_inv (Game (visited (start_game true)) (0, 0) (7, 7) 2 true []))
    as Hinv by (apply (bool_decide_unpack _); vm_compute; exact I).
  split; [done|].
  by apply (agent_move_is_legal (H := exact_scores)
              (Game (visited (start_game true)) (0, 0) (7, 7) 2 true [])).
Defined.

(** X24. The agent passes when every legal move of the second knight leads
    to a square from which no move leads on: each such move is valued
    -9999, which is not greater than the initial best value -9999, so no
    move is chosen and the game is left as it is, although the knight has
    legal moves. *)
Theorem agent_passes_on_dead_ends `{Scores} (g : game) :
  grid_shape (visited g) →
  Forall (λ m, open_square (visited g) m → onward (visited g) m = 0%nat)
         (targets (knight2_position g)) →
  make_move g = Some g.
Proof.
  intros Hshape Hdead.
  unfold make_move, make_move_with. rewrite decide_False by lia.
  rewrite warnsdorffs_rule_spec by done. simpl.
  assert (∀ moves : list (Z * Z),
            Forall (λ m, onward (visited g) m = 0%nat) moves →
            best_of g 2 moves None (of_int (-9999))
            = Some (None, of_int (-9999))) as Hbest.
  { induction 1 as [|m moves Hm Hmoves IH]; [done|].
    cbn [best_of evaluate_position].
    rewrite warnsdorffs_rule_spec by done. unfold onward in Hm.
    apply length_zero_iff_nil in Hm. rewrite Hm. simpl.
    by rewrite gt_irrefl. }
  rewrite Hbest; [done|].
  apply Forall_forall. intros m Hm. rewrite sorted_pure_perm in Hm.
  apply list_elem_of_filter in Hm as [Hopen Ht].
  rewrite Forall_forall in Hdead. by apply Hdead.
Qed.

Lemma agent_passes_on_dead_ends_late :
  get_legal_moves late_game (knight2_position late_game)
    = Some [(2, 1); (1, 2)] ∧
  make_move (H := exact_scores) late_game = Some late_game.
Proof.
  split; [reflexivity|].
  apply (agent_passes_on_dead_ends (H := exact_scores) late_game).
  - apply (bool_decide_unpack _); vm_compute; exact I.
  - apply (bool_decide_unpack _); vm_compute; exact I.
Defined.

(** X25. A new game with two different start squares on the board is in
    order: 62 squares are open, the first knight is to move, no message has
    been shown. *)
Theorem new_game_in_order (knight1_start knight2_start : Z * Z)
    (use_agent : bool) :
  on_board knight1_start → on_board knight2_start →
  knight1_start ≠ knight2_start →
  ∃ g, new_game knight1_start knight2_start use_agent = Some g ∧
       game_inv g ∧
       open_squares (visited g) = 62%nat ∧
       knight1_position g = knight1_start ∧
       knight2_position g = knight2_start ∧
       current_knight g = 1 ∧ has_agent g = use_agent ∧ messages g = [].
Proof.
  intros H1 H2 Hne. unfold new_game.
  set (vis0 := replicate (Z.to_nat board_size)
                 (replicate (Z.to_nat board_size) 0)).
  assert (grid_shape vis0) as Hshape0
    by (apply (bool_decide_unpack _); vm_compute; exact I).
  assert (∀ p, on_board p → grid_get vis0 p = Some 0) as Hzero.
  { intros p Hp.
    destruct (grid_get_on_board vis0 p Hshape0 Hp) as (row & c & Hrow & Hc & ->).
    apply lookup_replicate in Hrow as [-> _].
    by apply lookup_replicate in Hc as [-> _]. }
  destruct knight1_start as [x1 y1], knight2_start as [x2 y2].
  destruct (grid_get_on_board vis0 _ Hshape0 H1) as (r1 & c1 & Hr1 & Hc1 & Hg1).
  rewrite Hzero in Hg1 by done. injection Hg1 as <-.
  destruct (grid_set_on_board vis0 _ 1 Hshape0 H1) as (r1' & Hr1' & ->).
  simpl in Hr1, Hr1'. rewrite Hr1 in Hr1'. injection Hr1' as <-. simpl.
  destruct (moved_grid vis0 x1 y1 r1 1 Hshape0 H1 Hr1 Hc1)
    as (Hshape1 & Hget1 & Hopen1); [lia|].
  set (vis1 := <[Z.to_nat x1 := <[Z.to_nat y1 := 1]> r1]> vis0) in *.
  assert (grid_get vis1 (x2, y2) = Some 0) as Hg2.
  { unfold vis1. rewrite (grid_get_insert_ne _ (x1, y1)) by done.
    by apply Hzero. }
  destruct (grid_get_on_board vis1 _ Hshape1 H2) as (r2 & c2 & Hr2 & Hc2 & Hg2').
  rewrite Hg2 in Hg2'. injection Hg2' as <-.
  destruct (grid_set_on_board vis1 _ 2 Hshape1 H2) as (r2' & Hr2' & ->).
  simpl in Hr2, Hr2'. rewrite Hr2 in Hr2'. injection Hr2' as <-. simpl.
  destruct (moved_grid vis1 x2 y2 r2 2 Hshape1 H2 Hr2 Hc2)
    as (Hshape2 & Hget2 & Hopen2); [lia|].
  eexists. split; [done|].
  cbn [visited knight1_position knight2_position current_knight has_agent
       messages].
  split_and!; try done.
  - split_and!; cbn [visited knight1_position knight2_position current_knight
                     has_agent messages]; try done.
    + by rewrite (grid_get_insert_ne _ (x2, y2)).
    + by left.
  - assert (open_squares vis0 = 64%nat) as H64 by (by vm_compute). lia.
Qed.

Lemma new_game_in_order_default :
  ∃ g, new_game (0, 0) (7, 7) true = Some g ∧
       game_inv g ∧
       open_squares (visited g) = 62%nat ∧
       knight1_position g = (0, 0) ∧
       knight2_position g = (7, 7) ∧
       current_knight g = 1 ∧ has_agent g = true ∧ messages g = [].
Proof.
  apply (new_game_in_order (0, 0) (7, 7) true).
  - unfold on_board, board_size; simpl; lia.
  - unfold on_board, board_size; simpl; lia.
  - intros [=].
Defined.

(** X26. A run of clicks on squares of the board never raises
    [IndexError] and keeps the game in order; the clicks that change the
    game are at most as many as the squares that were open, so from a new
    game at most 62. *)
Theorem play_bounded `{Scores} (g : game) (clicks : list (Z * Z)) :
  game_inv g → Forall on_board clicks →
  ∃ g', play g clicks = Some g' ∧ game_step g g' ∧
        (effective g clicks + open_squares (visited g')
         ≤ open_squares (visited g))%nat.
Proof.
  intros Hinv Hclicks. revert g Hinv.
  induction Hclicks as [|[x y] clicks Hxy Hclicks IH]; intros g Hinv.
  { exists g. split; [done|]. split; [by apply game_step_refl|]. simpl. lia. }
  destruct (click_step make_move g x y Hinv Hxy) as (g1 & Hclick & Hstep1).
  { intros g2 Hinv2 Hc2. by apply make_move_step. }
  fold (on_square_click g x y) in Hclick.
  destruct (IH g1) as (g' & Hplay & Hstep & Hcount); [apply Hstep1|].
  exists g'. cbn [play effective fst snd]. rewrite Hclick. simpl.
  split; [done|]. split; [by eapply game_step_trans|].
  destruct Hstep1 as (_ & _ & _ & [->|Hless] & _).
  - rewrite decide_True by done. lia.
  - case_decide; lia.
Qed.

Lemma play_bounded_start :
  game_inv (start_game true) ∧ Forall on_board [(1, 2); (3, 3); (2, 4)] ∧
  ∃ g', play (H := exact_scores) (start_game true) [(1, 2); (3, 3); (2, 4)]
          = Some g' ∧
        game_step (start_game true) g' ∧
        (effective (H := exact_scores) (start_game true)
           [(1%Z, 2%Z); (3%Z, 3%Z); (2%Z, 4%Z)]
         + open_squares (visited g')
         ≤ open_squares (visited (start_game true)))%nat.
Proof.
  assert (game_inv (start_game true)) as Hinv
    by (apply (bool_decide_unpack _); vm_compute; exact I).
  assert (Forall on_board [(1, 2); (3, 3); (2, 4)]) as Hb
    by (repeat constructor; unfold board_size; simpl; lia).
  split_and!; [done|done|].
  by apply (play_bounded (H := exact_scores) (start_game true)).
Defined.

Section wrapping.
Implicit Types (vis : list (list Z)) (p : Z * Z).

Lemma py_setitem_spec {A} (l : list A) (i : Z) (x : A) :
  py_setitem l i x =
  if decide (- Z.of_nat (length l) ≤ i ∧ i < Z.of_nat (length l))
  then Some (<[Z.to_nat (i `mod` Z.of_nat (length l)) := x]> l)
  else None.
Proof.
  unfold py_setitem. destruct (decide (0 ≤ i)) as [Hi|Hi].
  - case_decide as Hr.
    + rewrite decide_True by lia. by rewrite Z.mod_small by lia.
    + rewrite decide_False; [done|lia].
  - case_decide as Hn.
    + rewrite decide_True by lia. do 3 f_equal.
      apply (Z.mod_unique_pos _ _ (-1)); lia.
    + rewrite decide_False; [done|lia].
Qed.

Lemma wrapped_on_board p :
  on_board (p.1 `mod` board_size, p.2 `mod` board_size).
Proof.
  unfold on_board, board_size. simpl.
  pose proof (Z.mod_pos_bound p.1 8). pose proof (Z.mod_pos_bound p.2 8). lia.
Qed.

(** On the 8 x 8 grid an index pair is accepted when both coordinates are
    from -8 to 7; a negative coordinate reads the square 8 further on. *)
Lemma grid_get_wrap vis p :
  grid_shape vis →
  grid_get vis p =
  if decide (label_index_ok p)
  then grid_get vis (p.1 `mod` board_size, p.2 `mod` board_size)
  else None.
Proof.
  intros Hshape. pose proof Hshape as [Hlen Hrows].
  destruct (grid_get_on_board vis _ Hshape (wrapped_on_board p))
    as (row & c & Hrow & Hc & ->).
  pose proof (Forall_lookup_1 _ _ _ _ Hrows Hrow) as Hrl.
  simpl in Hrow, Hc, Hrl.
  unfold grid_get, label_index_ok, board_size in *.
  rewrite py_index_spec, Hlen. change (Z.of_nat (Z.to_nat 8)) with 8.
  case_decide as H1.
  - rewrite Hrow. cbn -[py_index py_setitem Z.modulo Z.to_nat].
    rewrite py_index_spec, Hrl. change (Z.of_nat (Z.to_nat 8)) with 8.
    rewrite Hc. repeat case_decide; done || lia.
  - cbn -[py_index py_setitem Z.modulo Z.to_nat].
    rewrite decide_False; [done|]. lia.
Qed.

Lemma grid_set_ok vis p x :
  grid_shape vis → label_index_ok p →
  ∃ vis', grid_set vis p x = Some vis' ∧ grid_shape vis' ∧
          grid_get vis' (p.1 `mod` board_size, p.2 `mod` board_size) = Some x.
Proof.
  intros Hshape Hok. pose proof Hshape as [Hlen Hrows].
  destruct (grid_get_on_board vis _ Hshape (wrapped_on_board p))
    as (row & c & Hrow & Hc & _).
  pose proof (Forall_lookup_1 _ _ _ _ Hrows Hrow) as Hrl.
  simpl in Hrow, Hc, Hrl.
  unfold grid_set, label_index_ok, board_size in *.
  rewrite py_index_spec, Hlen. change (Z.of_nat (Z.to_nat 8)) with 8.
  rewrite decide_True by lia. rewrite Hrow.
  cbn -[py_index py_setitem Z.modulo Z.to_nat].
  rewrite py_setitem_spec, Hrl. change (Z.of_nat (Z.to_nat 8)) with 8.
  rewrite decide_True by lia. cbn -[py_index py_setitem Z.modulo Z.to_nat].
  rewrite py_setitem_spec, Hlen. change (Z.of_nat (Z.to_nat 8)) with 8.
  rewrite decide_True by lia.
  eexists. split; [done|]. split; [by apply grid_shape_insert|].
  apply (grid_get_insert_eq vis (p.1 `mod` 8, p.2 `mod` 8));
    [apply (wrapped_on_board p)|done|].
  by eapply lookup_lt_Some.
Qed.

Lemma grid_set_bad vis p x :
  grid_shape vis → ¬ label_index_ok p → grid_set vis p x = None.
Proof.
  intros Hshape Hbad. pose proof Hshape as [Hlen Hrows].
  destruct (grid_get_on_board vis _ Hshape (wrapped_on_board p))
    as (row & c & Hrow & Hc & _).
  pose proof (Forall_lookup_1 _ _ _ _ Hrows Hrow) as Hrl.
  simpl in Hrow, Hc, Hrl.
  unfold grid_set, label_index_ok, board_size in *.
  rewrite py_index_spec, Hlen. change (Z.of_nat (Z.to_nat 8)) with 8.
  case_decide as H1; [|done].
  rewrite Hrow. cbn -[py_index py_setitem Z.modulo Z.to_nat].
  rewrite py_setitem_spec, Hrl. change (Z.of_nat (Z.to_nat 8)) with 8.
  rewrite decide_False; [done|lia].
Qed.

End wrapping.

(** X27. [is_valid_move] does not check that the end square is on the
    board.  For an end square a knight's move from the start square, a
    coordinate below -8 or above 7 raises [IndexError], and a coordinate
    from -8 to -1 makes it read the mark of the square 8 further on, on the
    opposite side of the board. *)
Theorem is_valid_move_unchecked_bounds (g : game) (start end_ : Z * Z) :
  grid_shape (visited g) → end_ ∈ targets start →
  is_valid_move g start end_ =
  if decide (label_index_ok end_)
  then c ← grid_get (visited g)
             (end_.1 `mod` board_size, end_.2 `mod` board_size);
       Some (bool_decide (c = 0))
  else None.
Proof.
  intros Hshape Ht. unfold is_valid_move. rewrite decide_True by done.
  rewrite grid_get_wrap by done. by case_decide.
Qed.

Lemma is_valid_move_unchecked_bounds_start :
  grid_shape (visited (start_game false)) ∧ (-1, 2) ∈ targets (0, 0) ∧
  is_valid_move (start_game false) (0, 0) (-1, 2) = Some true ∧
  grid_get (visited (start_game false)) (7, 2) = Some 0.
Proof.
  assert (grid_shape (visited (start_game false))) as Hshape
    by (apply (bool_decide_unpack _); vm_compute; exact I).
  assert ((-1, 2) ∈ targets (0, 0)) as Ht.
  { rewrite elem_of_targets. vm_compute. do 2 apply list_elem_of_further.
    apply list_elem_of_here. }
  split_and!; [done|done| |reflexivity].
  rewrite (is_valid_move_unchecked_bounds (start_game false) (0, 0) (-1, 2))
    by done.
  reflexivity.
Defined.

(** X28. [IsolationKnightGame.__init__] raises [IndexError] exactly when a
    coordinate of a start square is below -8 or above 7; start squares with
    coordinates from -8 to -1 are accepted. *)
Theorem new_game_raises_iff (knight1_start knight2_start : Z * Z)
    (use_agent : bool) :
  new_game knight1_start knight2_start use_agent = None ↔
  ¬ (label_index_ok knight1_start ∧ label_index_ok knight2_start).
Proof.
  unfold new_game.
  set (vis0 := replicate (Z.to_nat board_size)
                 (replicate (Z.to_nat board_size) 0)).
  assert (grid_shape vis0) as Hshape0
    by (apply (bool_decide_unpack _); vm_compute; exact I).
  destruct (decide (label_index_ok knight1_start)) as [Hok1|Hbad1].
  - destruct (grid_set_ok vis0 knight1_start 1 Hshape0 Hok1)
      as (vis1 & -> & Hshape1 & _). simpl.
    destruct (decide (label_index_ok knight2_start)) as [Hok2|Hbad2].
    + destruct (grid_set_ok vis1 knight2_start 2 Hshape1 Hok2)
        as (vis2 & -> & _). simpl. split; [done|tauto].
    + rewrite grid_set_bad by done. simpl. split; [tauto|done].
  - rewrite grid_set_bad by done. simpl. split; [tauto|done].
Qed.

(** X29. When both knights are given the same start square of the board,
    the square ends up with the second knight's mark, so the first knight
    stands on a square that does not carry its mark; 63 squares are open. *)
Theorem new_game_same_square (start : Z * Z) (use_agent : bool) :
  on_board start →
  ∃ g, new_game start start use_agent = Some g ∧
       grid_get (visited g) (knight1_position g) = Some 2 ∧
       open_squares (visited g) = 63%nat ∧
       ¬ game_inv g.
Proof.
  intros Hb. unfold new_game.
  set (vis0 := replicate (Z.to_nat board_size)
                 (replicate (Z.to_nat board_size) 0)).
  assert (grid_shape vis0) as Hshape0
    by (apply (bool_decide_unpack _); vm_compute; exact I).
  destruct start as [x y].
  destruct (grid_get_on_board vis0 _ Hshape0 Hb) as (r & c & Hr & Hc & Hg).
  assert (c = 0) as ->.
  { apply lookup_replicate in Hr as [-> _].
    by apply lookup_replicate in Hc as [-> _]. }
  destruct (grid_set_on_board vis0 _ 1 Hshape0 Hb) as (r' & Hr' & ->).
  simpl in Hr, Hr'. rewrite Hr in Hr'. injection Hr' as <-. simpl.
  destruct (moved_grid vis0 x y r 1 Hshape0 Hb Hr Hc)
    as (Hshape1 & Hget1 & Hopen1); [lia|].
  set (vis1 := <[Z.to_nat x := <[Z.to_nat y := 1]> r]> vis0) in *.
  destruct (grid_set_on_board vis1 _ 2 Hshape1 Hb) as (r1 & Hr1 & ->).
  simpl in Hr1. simpl.
  assert (r1 = <[Z.to_nat y := 1]> r) as ->.
  { unfold vis1 in Hr1.
    rewrite list_lookup_insert_eq in Hr1 by (by eapply lookup_lt_Some).
    by injection Hr1. }
  assert (Z.to_nat y < length r)%nat as Hlen by by eapply lookup_lt_Some.
  assert (grid_get (<[Z.to_nat x := <[Z.to_nat y := 2]>
                        (<[Z.to_nat y := 1]> r)]> vis1) (x, y) = Some 2)
    as Hget2.
  { apply (grid_get_insert_eq vis1 (x, y)); [done|done|].
    by rewrite length_insert. }
  eexists. split; [done|].
  cbn [visited knight1_position knight2_position current_knight has_agent
       messages].
  split_and!.
  - done.
  - unfold vis1. rewrite list_insert_insert_eq, list_insert_insert_eq.
    assert (open_squares vis0 = 64%nat) as H64 by (by vm_compute).
    pose proof (open_squares_insert vis0 (Z.to_nat x) (Z.to_nat y) r 2 Hr Hc).
    lia.
  - intros (_ & _ & _ & Hmark & _).
    cbn [visited knight1_position] in Hmark. congruence.
Qed.

Lemma new_game_same_square_center :
  on_board (3, 3) ∧
  ∃ g, new_game (3, 3) (3, 3) false = Some g ∧
       grid_get (visited g) (knight1_position g) = Some 2 ∧
       open_squares (visited g) = 63%nat ∧
       ¬ game_inv g.
Proof.
  assert (on_board (3, 3)) as Hb by (unfold on_board, board_size; simpl; lia).
  split; [done|]. by apply (new_game_same_square (3, 3) false).
Defined.

(** ** The solution file: writing and reading back *)

Section text_facts.
Implicit Types (s a b : list ascii) (c : ascii) (z n d : Z).

Lemma digit_cases d :
  0 ≤ d < 10 →
  d = 0 ∨ d = 1 ∨ d = 2 ∨ d = 3 ∨ d = 4 ∨ d = 5 ∨ d = 6 ∨ d = 7 ∨ d = 8 ∨
  d = 9.
Proof. lia. Qed.

Lemma digit_of_ascii_of_digit d :
  0 ≤ d < 10 → digit_of_ascii (ascii_of_digit d) = Some d.
Proof.
  intros Hd. pose proof (digit_cases d Hd) as Hcases.
  repeat (destruct Hcases as [->|Hcases]; [reflexivity|]). by subst.
Qed.

Lemma plain_digit d : 0 ≤ d < 10 → plain (ascii_of_digit d).
Proof.
  intros Hd. pose proof (digit_cases d Hd) as Hcases.
  repeat (destruct Hcases as [->|Hcases];
          [by apply (bool_decide_unpack _)|]).
  subst. by apply (bool_decide_unpack _).
Qed.

Lemma digit_no_sign d :
  0 ≤ d < 10 → ascii_of_digit d ≠ minus_sign ∧ ascii_of_digit d ≠ plus_sign.
Proof.
  intros Hd. pose proof (digit_cases d Hd) as Hcases.
  repeat (destruct Hcases as [->|Hcases];
          [by apply (bool_decide_unpack _)|]).
  subst. by apply (bool_decide_unpack _).
Qed.

Lemma plain_minus_sign : plain minus_sign.
Proof. by apply (bool_decide_unpack _). Qed.

Lemma newline_is_space : is_space newline.
Proof. by apply (bool_decide_unpack _). Qed.

Lemma carriage_return_not_newline : carriage_return ≠ newline.
Proof. by apply (bool_decide_unpack _). Qed.

Lemma digits_fuel_S (fuel : nat) n acc :
  digits_fuel (S fuel) n acc =
  if decide (n < 10) then ascii_of_digit (n `mod` 10) :: acc
  else digits_fuel fuel (n `div` 10) (ascii_of_digit (n `mod` 10) :: acc).
Proof. reflexivity. Qed.

Lemma digits_fuel_plain (fuel : nat) n acc :
  0 ≤ n → Forall plain acc → Forall plain (digits_fuel fuel n acc).
Proof.
  revert n acc. induction fuel as [|fuel IH]; intros n acc Hn Hacc; [done|].
  rewrite digits_fuel_S.
  assert (Forall plain (ascii_of_digit (n `mod` 10) :: acc)) as Hacc'.
  { constructor; [|done]. apply plain_digit. by apply Z.mod_pos_bound. }
  case_decide; [done|]. apply IH; [|done]. by apply Z.div_pos.
Qed.

(** The text of a number starts with a digit. *)
Lemma digits_fuel_head (fuel : nat) n acc :
  ∃ d rest, 0 ≤ d < 10 ∧
    digits_fuel (S fuel) n acc = ascii_of_digit d :: rest.
Proof.
  revert n acc. induction fuel as [|fuel IH]; intros n acc.
  - exists (n `mod` 10), acc. split; [by apply Z.mod_pos_bound|].
    rewrite digits_fuel_S. by case_decide.
  - rewrite digits_fuel_S. case_decide; [|apply IH].
    exists (n `mod` 10), acc. split; [by apply Z.mod_pos_bound|done].
Qed.

Lemma parse_digits_cons acc (after_digit : bool) d rest :
  0 ≤ d < 10 →
  parse_digits acc after_digit (ascii_of_digit d :: rest) =
  parse_digits (10 * acc + d) true rest.
Proof. intros Hd. cbn [parse_digits]. by rewrite digit_of_ascii_of_digit. Qed.

Lemma parse_digits_fuel (fuel : nat) n acc (after_digit : bool) :
  0 ≤ n → n < 10 ^ Z.of_nat (S fuel) →
  parse_digits 0 after_digit (digits_fuel (S fuel) n acc) =
  parse_digits n true acc.
Proof.
  revert n acc after_digit.
  induction fuel as [|fuel IH]; intros n acc after_digit Hn Hlt.
  - change (Z.of_nat 1) with 1 in Hlt. rewrite Z.pow_1_r in Hlt.
    rewrite digits_fuel_S, decide_True by done. change (digits_fuel 0 ?m ?l) with l.
    rewrite parse_digits_cons by (by apply Z.mod_pos_bound).
    rewrite Z.mod_small by lia. by rewrite Z.mul_0_r, Z.add_0_l.
  - rewrite digits_fuel_S. case_decide as Hsmall.
    + rewrite parse_digits_cons by (by apply Z.mod_pos_bound).
      rewrite Z.mod_small by lia. by rewrite Z.mul_0_r, Z.add_0_l.
    + rewrite IH.
      * rewrite parse_digits_cons by (by apply Z.mod_pos_bound).
        by rewrite <- Z.div_mod by lia.
      * by apply Z.div_pos.
      * apply Z.div_lt_upper_bound; [lia|].
        by rewrite (Nat2Z.inj_succ (S fuel)), Z.pow_succ_r in Hlt by lia.
Qed.

Lemma log2_fuel n : 0 ≤ n → n < 10 ^ Z.of_nat (S (Z.to_nat (Z.log2 n))).
Proof.
  intros Hn. rewrite Nat2Z.inj_succ, Z2Nat.id by apply Z.log2_nonneg.
  destruct (decide (n = 0)) as [->|Hne]; [done|].
  pose proof (Z.log2_spec n) as [_ Hlt]; [lia|].
  eapply Z.lt_le_trans; [exact Hlt|].
  apply Z.pow_le_mono_l. pose proof (Z.log2_nonneg n). lia.
Qed.

Lemma str_int_plain z : Forall plain (str_int z).
Proof.
  unfold str_int. case_decide.
  - constructor; [apply plain_minus_sign|].
    apply digits_fuel_plain; [lia|done].
  - apply digits_fuel_plain; [lia|done].
Qed.

Lemma lstrip_cons c s : ¬ is_space c → lstrip (c :: s) = c :: s.
Proof. intros Hc. cbn [lstrip]. by rewrite decide_False. Qed.

Lemma lstrip_plain s : Forall plain s → lstrip s = s.
Proof.
  destruct 1 as [|c s [Hc _] _]; [done|]. by apply lstrip_cons.
Qed.

Lemma strip_plain s : Forall plain s → strip s = s.
Proof.
  intros Hs. unfold strip. rewrite (lstrip_plain s) by done.
  rewrite lstrip_plain by (by apply Forall_rev). apply rev_involutive.
Qed.

Lemma strip_plain_newline s : Forall plain s → strip (s ++ [newline]) = s.
Proof.
  intros Hs. unfold strip.
  destruct Hs as [|c s Hc Hs].
  - cbn [app lstrip]. rewrite decide_True by apply newline_is_space.
    reflexivity.
  - rewrite <- app_comm_cons, lstrip_cons by apply Hc.
    rewrite app_comm_cons, rev_app_distr.
    change (rev [newline] ++ rev (c :: s)) with (newline :: rev (c :: s)).
    cbn [lstrip]. rewrite decide_True by apply newline_is_space.
    rewrite lstrip_plain; [apply rev_involutive|].
    apply Forall_rev. by constructor.
Qed.

Lemma py_int_cons s c rest :
  strip s = c :: rest →
  py_int s =
  if decide (c = minus_sign) then Z.opp <$> parse_digits 0 false rest
  else if decide (c = plus_sign) then parse_digits 0 false rest
  else parse_digits 0 false (c :: rest).
Proof. unfold py_int. by intros ->. Qed.

Lemma parse_digits_nil acc : parse_digits acc true [] = Some acc.
Proof. reflexivity. Qed.

(** Reading back what [str] wrote, also with a line ending after it. *)
Lemma py_int_str_int z (tail : list ascii) :
  tail = [] ∨ tail = [newline] → py_int (str_int z ++ tail) = Some z.
Proof.
  intros Htail.
  assert (strip (str_int z ++ tail) = str_int z) as Hstrip.
  { destruct Htail as [-> | ->].
    - rewrite app_nil_r. apply strip_plain, str_int_plain.
    - apply strip_plain_newline, str_int_plain. }
  revert Hstrip. unfold str_int. case_decide as Hneg; intros Hstrip.
  - rewrite (py_int_cons _ _ _ Hstrip), decide_True by done.
    rewrite parse_digits_fuel by (lia || (apply log2_fuel; lia)).
    rewrite parse_digits_nil. cbn [fmap option_fmap option_map].
    by rewrite Z.opp_involutive.
  - destruct (digits_fuel_head (Z.to_nat (Z.log2 z)) z [])
      as (d & rest & Hd & Hdigits).
    destruct (digit_no_sign d Hd) as [Hminus Hplus].
    rewrite (py_int_cons _ (ascii_of_digit d) rest) by (by rewrite Hstrip).
    rewrite !decide_False by done.
    rewrite <- Hdigits.
    rewrite parse_digits_fuel by (lia || (apply log2_fuel; lia)).
    apply parse_digits_nil.
Qed.

Lemma split_from_app (sep : ascii) cur a rest :
  Forall (λ c, c ≠ sep) a →
  split_from sep cur (a ++ rest) = split_from sep (rev a ++ cur) rest.
Proof.
  intros Ha. revert cur. induction Ha as [|c a Hc Ha IH]; intros cur; [done|].
  rewrite <- app_comm_cons. cbn [split_from].
  rewrite decide_False by done. rewrite IH.
  cbn [rev]. by rewrite <- app_assoc.
Qed.

Lemma split_cell a b :
  Forall (λ c, c ≠ comma) a → Forall (λ c, c ≠ comma) b →
  split comma (a ++ comma :: b) = [a; b].
Proof.
  intros Ha Hb. unfold split. rewrite split_from_app by done.
  cbn [split_from]. rewrite decide_True by done.
  rewrite <- (app_nil_r b) at 1. rewrite split_from_app by done.
  cbn [split_from]. by rewrite !app_nil_r, !rev_involutive.
Qed.

Lemma write_text_app (p : platform) a rest :
  Forall (λ c, c ≠ newline ∧ c ≠ carriage_return) a →
  write_text p (a ++ rest) = a ++ write_text p rest.
Proof.
  induction 1 as [|c a [Hn _] Ha IH]; [done|].
  rewrite <- !app_comm_cons. cbn [write_text].
  rewrite decide_False by done. rewrite IH. reflexivity.
Qed.

Lemma readlines_from_app cur a rest :
  Forall (λ c, c ≠ newline ∧ c ≠ carriage_return) a →
  readlines_from cur (a ++ rest) = readlines_from (rev a ++ cur) rest.
Proof.
  intros Ha. revert cur.
  induction Ha as [|c a [Hn Hr] Ha IH]; intros cur; [done|].
  rewrite <- app_comm_cons. cbn [readlines_from].
  rewrite !decide_False by done. rewrite IH.
  cbn [rev]. by rewrite <- app_assoc.
Qed.

(** A line ending of either platform is read as one newline. *)
Lemma readlines_from_linesep (p : platform) cur rest :
  readlines_from cur (linesep p ++ rest) =
  rev (newline :: cur) :: readlines_from [] rest.
Proof.
  destruct p; cbn [linesep app readlines_from].
  - by rewrite decide_True.
  - rewrite decide_False by apply carriage_return_not_newline.
    by rewrite !decide_True.
Qed.

Lemma readlines_last cur : cur ≠ [] → readlines_from cur [] = [rev cur].
Proof. by destruct cur. Qed.

Lemma readlines_written (p : platform) (lines : list (list ascii)) :
  Forall (λ line, line ≠ [] ∧
                  Forall (λ c, c ≠ newline ∧ c ≠ carriage_return) line)
         lines →
  readlines (write_text p (join [newline] lines)) = with_newlines lines.
Proof.
  unfold readlines.
  induction 1 as [|line lines [Hne Hline] Hlines IH]; [done|].
  destruct lines as [|line' lines].
  - cbn [join with_newlines]. rewrite <- (app_nil_r line) at 1.
    rewrite write_text_app, readlines_from_app by done.
    cbn [write_text]. rewrite app_nil_r, readlines_last.
    + by rewrite rev_involutive.
    + intros Hrev. apply Hne.
      by rewrite <- (rev_involutive line), Hrev.
  - change (join [newline] (line :: line' :: lines))
      with (line ++ newline :: join [newline] (line' :: lines)).
    rewrite write_text_app by done. cbn [write_text].
    rewrite decide_True by done.
    rewrite readlines_from_app by done.
    rewrite readlines_from_linesep, IH. cbn [with_newlines]. f_equal.
    rewrite app_nil_r.
    change (newline :: rev line) with (rev [newline] ++ rev line).
    by rewrite <- rev_app_distr, rev_involutive.
Qed.

Lemma plain_not_comma s : Forall plain s → Forall (λ c, c ≠ comma) s.
Proof.
  intros Hs. eapply Forall_impl; [exact Hs|]. by intros c (_ & ? & _).
Qed.

Lemma plain_not_line_end s :
  Forall plain s → Forall (λ c, c ≠ newline ∧ c ≠ carriage_return) s.
Proof.
  intros Hs. eapply Forall_impl; [exact Hs|]. by intros c (_ & _ & ? & ?).
Qed.

Lemma str_int_not_nil z : str_int z ≠ [].
Proof.
  unfold str_int. case_decide; [done|].
  by destruct (digits_fuel_head (Z.to_nat (Z.log2 z)) z [])
    as (d & rest & _ & ->).
Qed.

Lemma format_cell_line (x : Z * Z) :
  format_cell x ≠ [] ∧
  Forall (λ c, c ≠ newline ∧ c ≠ carriage_return) (format_cell x).
Proof.
  unfold format_cell. split.
  - pose proof (str_int_not_nil x.1). by destruct (str_int x.1).
  - apply Forall_app. split; [apply plain_not_line_end, str_int_plain|].
    constructor; [by apply (bool_decide_unpack _)|].
    apply plain_not_line_end, str_int_plain.
Qed.

Lemma collect_two {A B} (f : A → option B) x y u v :
  f x = Some u → f y = Some v → collect f [x; y] = Some [u; v].
Proof. intros Hx Hy. cbn [collect]. by rewrite Hx, Hy. Qed.

Lemma parse_cell (x : Z * Z) (tail : list ascii) :
  tail = [] ∨ tail = [newline] →
  collect py_int (split comma (format_cell x ++ tail)) = Some [x.1; x.2].
Proof.
  intros Htail. unfold format_cell. rewrite <- app_assoc.
  change ((comma :: str_int x.2) ++ tail) with (comma :: (str_int x.2 ++ tail)).
  rewrite split_cell.
  - apply collect_two; [|by apply py_int_str_int].
    rewrite <- (app_nil_r (str_int x.1)). apply py_int_str_int. by left.
  - apply plain_not_comma, str_int_plain.
  - apply Forall_app. split; [apply plain_not_comma, str_int_plain|].
    destruct Htail as [-> | ->]; [done|].
    constructor; [by apply (bool_decide_unpack _)|done].
Qed.

Lemma collect_cons_Some {A B} (f : A → option B) x xs u us :
  f x = Some u → collect f xs = Some us → collect f (x :: xs) = Some (u :: us).
Proof. intros Hx Hxs. cbn [collect]. by rewrite Hx, Hxs. Qed.

End text_facts.

(** X30. The solution file round trip: the text that [find_knights_tour]
    writes for a list of cells, read back by [parse_solution_from_file],
    gives the same cells in the same order, each as the tuple of its row and
    column.  This holds with either line ending of the platform, for
    negative coordinates and for the empty list. *)
Theorem solution_file_round_trip (p : platform) (solution : list (Z * Z)) :
  parse_solution_from_file (write_text p (solution_text solution)) =
  Some ((λ x : Z * Z, [x.1; x.2]) <$> solution).
Proof.
  unfold parse_solution_from_file, solution_text.
  rewrite readlines_written.
  2:{ apply Forall_fmap, Forall_forall. intros x _. apply format_cell_line. }
  induction solution as [|x solution IH]; [done|].
  destruct solution as [|y solution].
  - rewrite !fmap_cons, !fmap_nil. cbn [with_newlines].
    apply collect_cons_Some; [|done].
    rewrite <- (app_nil_r (format_cell x)). apply parse_cell. by left.
  - rewrite !fmap_cons. rewrite !fmap_cons in IH.
    cbn [with_newlines]. cbn [with_newlines] in IH.
    apply collect_cons_Some; [|exact IH].
    apply parse_cell. by right.
Qed.
